(** * zap_optimized: the field constructors and the pooled buffer

    A shallow embedding of [field.go] (package [zap]) and of the two
    variants of [buffer.go] (package [buffer]), with the properties of
    the design document proved against them. *)

From Stdlib Require Import ZArith List Strings.String Strings.Ascii Strings.Byte Bool Lia.
Import ListNotations.

Local Open Scope string_scope.
Local Open Scope Z_scope.

(** ** Go's integer conversions

    Integers are [Z]; a conversion to a fixed-width type reduces modulo
    2^w, and for a signed type the result is read in two's complement. *)

Module goint.

Definition MinInt64 : Z := - 2 ^ 63.
Definition MaxInt64 : Z := 2 ^ 63 - 1.

(** [uint64(x)] *)
Definition uint64 (x : Z) : Z := x mod 2 ^ 64.

(** [int64(x)] *)
Definition int64 (x : Z) : Z := (x + 2 ^ 63) mod 2 ^ 64 - 2 ^ 63.

(** [int32(x)] *)
Definition int32 (x : Z) : Z := (x + 2 ^ 31) mod 2 ^ 32 - 2 ^ 31.

End goint.

(** ** Package [math]: floating-point numbers by their bit patterns

    [math.Float64bits] is a bijection between [float64] and [uint64]; the
    constructors only ever take the bits of a float, so a float is
    represented by them. *)

Module math.

Record float64 : Type := { Float64bits : Z }.
Record float32 : Type := { Float32bits : Z }.
Record complex128 : Type := { real128 : float64; imag128 : float64 }.
Record complex64 : Type := { real64 : float32; imag64 : float32 }.

End math.

(** ** Package [time]

    A [time.Time] is an instant, given here as Unix seconds and
    nanoseconds within the second, and a location pointer ([None] is the
    nil pointer, which means UTC). Monotonic clock readings are left out:
    the two bounds the constructors compare against come from
    [time.Unix] and carry none, so every comparison below is on the wall
    clock. *)

Module time.

Record Location : Type := { locName : string }.

Definition UTC : Location := {| locName := "UTC" |}.
Definition Local : Location := {| locName := "Local" |}.

Record Time : Type := { unixSec : Z; nsec : Z; loc : option Location }.

(** [time.Duration], an [int64] count of nanoseconds. *)
Definition Duration : Type := Z.

(** [time.Unix(sec, nsec)]; Go's [/] truncates toward zero. *)
Definition Unix (sec nsec : Z) : Time :=
  if (nsec <? 0) || (nsec >=? 1000000000) then
    let n := Z.quot nsec 1000000000 in
    let sec := sec + n in
    let nsec := nsec - n * 1000000000 in
    if nsec <? 0 then
      {| unixSec := sec - 1; nsec := goint.int32 (nsec + 1000000000); loc := Some Local |}
    else
      {| unixSec := sec; nsec := goint.int32 nsec; loc := Some Local |}
  else
    {| unixSec := sec; nsec := goint.int32 nsec; loc := Some Local |}.

(** [t.Before(u)] *)
Definition Before (t u : Time) : bool :=
  (unixSec t <? unixSec u) || ((unixSec t =? unixSec u) && (nsec t <? nsec u)).

(** [t.After(u)] *)
Definition After (t u : Time) : bool :=
  (unixSec t >? unixSec u) || ((unixSec t =? unixSec u) && (nsec t >? nsec u)).

(** [t.UnixNano()]: an [int64] product and sum, which wrap. *)
Definition UnixNano (t : Time) : Z :=
  goint.int64 (unixSec t * 1000000000 + goint.int64 (nsec t)).

(** [t.Location()] *)
Definition Location_of (t : Time) : Location :=
  match loc t with
  | None => UTC
  | Some l => l
  end.

End time.

(** ** Package [zapcore]: the field type

    [field.go] imports [zapcore], which is not among the sources. *)

Module zapcore.

(** Modelled from the spec: [zapcore.FieldType]. The discriminants are
    the ones the design document lists for the tagged union, under the
    names [field.go] uses; [UnknownType] is the zero value. *)
Inductive FieldType : Type :=
| UnknownType
| ArrayMarshalerType
| ObjectMarshalerType
| BinaryType
| BoolType
| ByteStringType
| Complex128Type
| Complex64Type
| DurationType
| Float64Type
| Float32Type
| Int64Type
| Int32Type
| Int16Type
| Int8Type
| StringType
| TimeType
| TimeFullType
| Uint64Type
| Uint32Type
| Uint16Type
| Uint8Type
| UintptrType
| ReflectType
| NamespaceType
| StringerType
| ErrorType
| SkipType
| InlineMarshalerType.

(** Modelled from the spec: [zapcore.Field], a key, a discriminant and
    three payload slots (a signed 64-bit integer, a string and an
    arbitrary reference), with the field names of the composite literals
    of [field.go]. The struct is given over the type [I] of what the
    [Interface] slot holds; [Type] and [String] are spelled [Type_] and
    [String_]. *)
Record FieldOf (I : Type) : Type := mkField {
  Key : string;
  Type_ : FieldType;
  Integer : Z;
  String_ : string;
  Interface : I
}.

Arguments mkField {I} _ _ _ _ _.
Arguments Key {I} _.
Arguments Type_ {I} _.
Arguments Integer {I} _.
Arguments String_ {I} _.
Arguments Interface {I} _.

(** [f.Key = key] on a struct value. *)
Definition set_Key {I : Type} (f : FieldOf I) (key : string) : FieldOf I :=
  mkField key (Type_ f) (Integer f) (String_ f) (Interface f).

End zapcore.

(** The interfaces the type switch of [Any] tests a value against:
    [zapcore.ObjectMarshaler], [zapcore.ArrayMarshaler], [error] and
    [fmt.Stringer]. *)

Module iface.

Inductive Iface : Type :=
| ObjectMarshaler
| ArrayMarshaler
| error
| Stringer.

End iface.

(** ** Package [zap]: [field.go] *)

Module zap.

Import zapcore.

(** *** Values held by an [interface{}]

    A Go interface value is nil or a value with its dynamic type. There
    is one constructor per dynamic type the type switch of [Any] names
    (a pointer is [None] when nil, a slice is the list of its elements),
    one per type [field.go] itself stores in a field, and [VOther] for a
    value of any other type, which is described by its type's name, by
    the interfaces its method set satisfies, and by an opaque rendering. *)

Record MethodSet : Type := {
  isObjectMarshaler : bool;
  isArrayMarshaler : bool;
  isError : bool;
  isStringer : bool
}.

#[warnings="-register-all"]
Inductive Value : Type :=
| VNil
| VFields (v : list (FieldOf Value))
| VBool (v : bool)
| VBoolp (v : option bool)
| VBools (v : list bool)
| VComplex128 (v : math.complex128)
| VComplex128p (v : option math.complex128)
| VComplex128s (v : list math.complex128)
| VComplex64 (v : math.complex64)
| VComplex64p (v : option math.complex64)
| VComplex64s (v : list math.complex64)
| VFloat64 (v : math.float64)
| VFloat64p (v : option math.float64)
| VFloat64s (v : list math.float64)
| VFloat32 (v : math.float32)
| VFloat32p (v : option math.float32)
| VFloat32s (v : list math.float32)
| VInt (v : Z)
| VIntp (v : option Z)
| VInts (v : list Z)
| VInt64 (v : Z)
| VInt64p (v : option Z)
| VInt64s (v : list Z)
| VInt32 (v : Z)
| VInt32p (v : option Z)
| VInt32s (v : list Z)
| VInt16 (v : Z)
| VInt16p (v : option Z)
| VInt16s (v : list Z)
| VInt8 (v : Z)
| VInt8p (v : option Z)
| VInt8s (v : list Z)
| VString (v : string)
| VStringp (v : option string)
| VStrings (v : list string)
| VUint (v : Z)
| VUintp (v : option Z)
| VUints (v : list Z)
| VUint64 (v : Z)
| VUint64p (v : option Z)
| VUint64s (v : list Z)
| VUint32 (v : Z)
| VUint32p (v : option Z)
| VUint32s (v : list Z)
| VUint16 (v : Z)
| VUint16p (v : option Z)
| VUint16s (v : list Z)
| VUint8 (v : Z)
| VUint8p (v : option Z)
| VBytes (v : list byte)
| VUintptr (v : Z)
| VUintptrp (v : option Z)
| VUintptrs (v : list Z)
| VTime (v : time.Time)
| VTimep (v : option time.Time)
| VTimes (v : list time.Time)
| VDuration (v : time.Duration)
| VDurationp (v : option time.Duration)
| VDurations (v : list time.Duration)
| VErrors (v : list Value)
| VMapStringString (v : list (string * string))
| VMapStringInterface (v : list (string * Value))
| VDictObject (v : list (FieldOf Value))
| VMapStringStringObject (v : list (string * string))
| VMapStringInterfaceObject (v : list (string * Value))
| VLocation (v : time.Location)
| VOther (name : string) (ms : MethodSet) (repr : string).

(** [type Field = zapcore.Field] *)
Definition Field : Type := FieldOf Value.

Definition no_methods : MethodSet :=
  {| isObjectMarshaler := false; isArrayMarshaler := false;
     isError := false; isStringer := false |}.

(** Only [String() string]: [time.Time], [time.Duration] (and, the method
    having a value receiver, the pointers to them) and [*time.Location]. *)
Definition only_String : MethodSet :=
  {| isObjectMarshaler := false; isArrayMarshaler := false;
     isError := false; isStringer := true |}.

(** Only [MarshalLogObject]: [dictObject], [mapStringStringObject] and
    [mapStringInterfaceObject] (field.go, lines 397, 414 and 424). *)
Definition only_MarshalLogObject : MethodSet :=
  {| isObjectMarshaler := true; isArrayMarshaler := false;
     isError := false; isStringer := false |}.

(** The method set of a value's dynamic type. Predeclared types and
    unnamed pointer, slice and map types have no methods. *)
Definition method_set (value : Value) : MethodSet :=
  match value with
  | VTime _ | VTimep _ | VDuration _ | VDurationp _ | VLocation _ => only_String
  | VDictObject _ | VMapStringStringObject _ | VMapStringInterfaceObject _ =>
      only_MarshalLogObject
  | VOther _ ms _ => ms
  | _ => no_methods
  end.

(** Whether [value.(i)] succeeds: the value is not nil and its dynamic
    type implements [i]. *)
Definition implements (i : iface.Iface) (value : Value) : bool :=
  match i with
  | iface.ObjectMarshaler => isObjectMarshaler (method_set value)
  | iface.ArrayMarshaler => isArrayMarshaler (method_set value)
  | iface.error => isError (method_set value)
  | iface.Stringer => isStringer (method_set value)
  end.

(** *** Package-level variables and the functions that read them *)

Record Globals : Type := {
  _minTimeInt64 : time.Time;
  _maxTimeInt64 : time.Time;
  nilReflectField : Field
}.

(** A function of the package takes the package's variables and returns
    its result with the variables as it leaves them. *)
Definition Pkg (A : Type) : Type := Globals -> A * Globals.

Definition ret {A : Type} (a : A) : Pkg A := fun g => (a, g).

Definition bind {A B : Type} (m : Pkg A) (k : A -> Pkg B) : Pkg B :=
  fun g => let (a, g') := m g in k a g'.

(** Reading a package-level variable. *)
Definition load {A : Type} (var : Globals -> A) : Pkg A := fun g => (var g, g).

Notation "x <- m ;; k" := (bind m (fun x => k))
  (at level 100, m at next level, right associativity).

(** The variables as the package initialises them (lines 36-39 and 50). *)
Definition init : Globals := {|
  _minTimeInt64 := time.Unix 0 goint.MinInt64;
  _maxTimeInt64 := time.Unix 0 goint.MaxInt64;
  nilReflectField := mkField "" ReflectType 0 "" VNil
|}.

Definition Skip : Field := mkField "" SkipType 0 "" VNil.

Definition nilField (key : string) : Pkg Field :=
  f <- load nilReflectField ;;
  let f := set_Key f key in
  ret f.

Definition Binary (key : string) (val : list byte) : Field :=
  mkField key BinaryType 0 "" (VBytes val).

Definition Bool (key : string) (val : bool) : Field :=
  let ival := 0 in
  let ival := if val then 1 else ival in
  mkField key BoolType ival "" VNil.

(** The argument is the pointee of the [*bool]. *)
Definition boolToInt64 (v : bool) : Z :=
  if v then 1 else 0.

Definition Boolp (key : string) (val : option bool) : Pkg Field :=
  match val with
  | None => nilField key
  | Some v => ret (mkField key BoolType (boolToInt64 v) "" VNil)
  end.

Definition ByteString (key : string) (val : list byte) : Field :=
  mkField key ByteStringType 0 "" (VBytes val).

Definition Complex128 (key : string) (val : math.complex128) : Field :=
  mkField key Complex128Type 0 "" (VComplex128 val).

Definition Complex128p (key : string) (val : option math.complex128) : Pkg Field :=
  match val with
  | None => nilField key
  | Some v => ret (mkField key Complex128Type 0 "" (VComplex128 v))
  end.

Definition Complex64 (key : string) (val : math.complex64) : Field :=
  mkField key Complex64Type 0 "" (VComplex64 val).

Definition Complex64p (key : string) (val : option math.complex64) : Pkg Field :=
  match val with
  | None => nilField key
  | Some v => ret (mkField key Complex64Type 0 "" (VComplex64 v))
  end.

Definition Float64 (key : string) (val : math.float64) : Field :=
  mkField key Float64Type (goint.int64 (math.Float64bits val)) "" VNil.

Definition Float64p (key : string) (val : option math.float64) : Pkg Field :=
  match val with
  | None => nilField key
  | Some v => ret (mkField key Float64Type (goint.int64 (math.Float64bits v)) "" VNil)
  end.

Definition Float32 (key : string) (val : math.float32) : Field :=
  mkField key Float32Type (goint.int64 (math.Float32bits val)) "" VNil.

Definition Float32p (key : string) (val : option math.float32) : Pkg Field :=
  match val with
  | None => nilField key
  | Some v => ret (mkField key Float32Type (goint.int64 (math.Float32bits v)) "" VNil)
  end.

Definition Int64 (key : string) (val : Z) : Field :=
  mkField key Int64Type val "" VNil.

Definition Int (key : string) (val : Z) : Field :=
  Int64 key (goint.int64 val).

Definition Intp (key : string) (val : option Z) : Pkg Field :=
  match val with
  | None => nilField key
  | Some v => ret (mkField key Int64Type (goint.int64 v) "" VNil)
  end.

Definition Int64p (key : string) (val : option Z) : Pkg Field :=
  match val with
  | None => nilField key
  | Some v => ret (mkField key Int64Type v "" VNil)
  end.

Definition Int32 (key : string) (val : Z) : Field :=
  mkField key Int32Type (goint.int64 val) "" VNil.

Definition Int32p (key : string) (val : option Z) : Pkg Field :=
  match val with
  | None => nilField key
  | Some v => ret (mkField key Int32Type (goint.int64 v) "" VNil)
  end.

Definition Int16 (key : string) (val : Z) : Field :=
  mkField key Int16Type (goint.int64 val) "" VNil.

Definition Int16p (key : string) (val : option Z) : Pkg Field :=
  match val with
  | None => nilField key
  | Some v => ret (mkField key Int16Type (goint.int64 v) "" VNil)
  end.

Definition Int8 (key : string) (val : Z) : Field :=
  mkField key Int8Type (goint.int64 val) "" VNil.

Definition Int8p (key : string) (val : option Z) : Pkg Field :=
  match val with
  | None => nilField key
  | Some v => ret (mkField key Int8Type (goint.int64 v) "" VNil)
  end.

Definition String (key : string) (val : string) : Field :=
  mkField key StringType 0 val VNil.

Definition Stringp (key : string) (val : option string) : Pkg Field :=
  match val with
  | None => nilField key
  | Some v => ret (mkField key StringType 0 v VNil)
  end.

Definition Uint64 (key : string) (val : Z) : Field :=
  mkField key Uint64Type (goint.int64 val) "" VNil.

Definition Uint (key : string) (val : Z) : Field :=
  Uint64 key (goint.uint64 val).

Definition Uintp (key : string) (val : option Z) : Pkg Field :=
  match val with
  | None => nilField key
  | Some v => ret (mkField key Uint64Type (goint.int64 v) "" VNil)
  end.

Definition Uint64p (key : string) (val : option Z) : Pkg Field :=
  match val with
  | None => nilField key
  | Some v => ret (mkField key Uint64Type (goint.int64 v) "" VNil)
  end.

Definition Uint32 (key : string) (val : Z) : Field :=
  mkField key Uint32Type (goint.int64 val) "" VNil.

Definition Uint32p (key : string) (val : option Z) : Pkg Field :=
  match val with
  | None => nilField key
  | Some v => ret (mkField key Uint32Type (goint.int64 v) "" VNil)
  end.

Definition Uint16 (key : string) (val : Z) : Field :=
  mkField key Uint16Type (goint.int64 val) "" VNil.

Definition Uint16p (key : string) (val : option Z) : Pkg Field :=
  match val with
  | None => nilField key
  | Some v => ret (mkField key Uint16Type (goint.int64 v) "" VNil)
  end.

Definition Uint8 (key : string) (val : Z) : Field :=
  mkField key Uint8Type (goint.int64 val) "" VNil.

Definition Uint8p (key : string) (val : option Z) : Pkg Field :=
  match val with
  | None => nilField key
  | Some v => ret (mkField key Uint8Type (goint.int64 v) "" VNil)
  end.

Definition Uintptr (key : string) (val : Z) : Field :=
  mkField key UintptrType (goint.int64 val) "" VNil.

Definition Uintptrp (key : string) (val : option Z) : Pkg Field :=
  match val with
  | None => nilField key
  | Some v => ret (mkField key UintptrType (goint.int64 v) "" VNil)
  end.

Definition Reflect (key : string) (val : Value) : Field :=
  mkField key ReflectType 0 "" val.

Definition Namespace (key : string) : Field :=
  mkField key NamespaceType 0 "" VNil.

Definition Stringer (key : string) (val : Value) : Field :=
  mkField key StringerType 0 "" val.

Definition Time (key : string) (val : time.Time) : Pkg Field :=
  lo <- load _minTimeInt64 ;;
  hi <- load _maxTimeInt64 ;;
  if time.Before val lo || time.After val hi then
    ret (mkField key TimeFullType 0 "" (VTime val))
  else
    ret (mkField key TimeType (time.UnixNano val) "" (VLocation (time.Location_of val))).

Definition Timep (key : string) (val : option time.Time) : Pkg Field :=
  match val with
  | None => nilField key
  | Some v => Time key v
  end.

Definition Duration (key : string) (val : time.Duration) : Field :=
  mkField key DurationType (goint.int64 val) "" VNil.

Definition Durationp (key : string) (val : option time.Duration) : Pkg Field :=
  match val with
  | None => nilField key
  | Some v => ret (mkField key DurationType (goint.int64 v) "" VNil)
  end.

(** [val] is an interface value: [VNil] is the nil interface. *)
Definition Object (key : string) (val : Value) : Pkg Field :=
  match val with
  | VNil => nilField key
  | _ => ret (mkField key ObjectMarshalerType 0 "" val)
  end.

Definition Inline (val : Value) : Field :=
  mkField "" InlineMarshalerType 0 "" val.

(** The conversion [dictObject(val)] is the constructor [VDictObject]. *)
Definition dictField (key : string) (val : list Field) : Pkg Field :=
  Object key (VDictObject val).

Definition Dict (key : string) (val : list Field) : Pkg Field :=
  dictField key val.

Definition DictObject (val : list Field) : Value :=
  VDictObject val.

(** The constructors of the package that [Any] calls and that are
    declared in other files of the package ([Array] and the slice
    constructors, [NamedError] and [Errors]). They are taken as given. *)
Record Externals : Type := {
  Array : string -> Value -> Field;
  Bools : string -> list bool -> Field;
  Complex128s : string -> list math.complex128 -> Field;
  Complex64s : string -> list math.complex64 -> Field;
  Float64s : string -> list math.float64 -> Field;
  Float32s : string -> list math.float32 -> Field;
  Ints : string -> list Z -> Field;
  Int64s : string -> list Z -> Field;
  Int32s : string -> list Z -> Field;
  Int16s : string -> list Z -> Field;
  Int8s : string -> list Z -> Field;
  Strings : string -> list string -> Field;
  Uints : string -> list Z -> Field;
  Uint64s : string -> list Z -> Field;
  Uint32s : string -> list Z -> Field;
  Uint16s : string -> list Z -> Field;
  Uintptrs : string -> list Z -> Field;
  Times : string -> list time.Time -> Field;
  Durations : string -> list time.Duration -> Field;
  NamedError : string -> Value -> Field;
  Errors : string -> list Value -> Field
}.

Section Dispatch.

Variable ext : Externals.

(** The type switch of [Any], case by case in the order of the source.
    An interface case is a test on the method set and a concrete case is
    a match on the dynamic type; the nil interface matches no case but
    [default]. *)
Definition Any (key : string) (value : Value) : Pkg Field :=
  if implements iface.ObjectMarshaler value then Object key value
  else if implements iface.ArrayMarshaler value then ret (Array ext key value)
  else
    match value with
    | VFields v => dictField key v
    | VBool v => ret (Bool key v)
    | VBoolp v => Boolp key v
    | VBools v => ret (Bools ext key v)
    | VComplex128 v => ret (Complex128 key v)
    | VComplex128p v => Complex128p key v
    | VComplex128s v => ret (Complex128s ext key v)
    | VComplex64 v => ret (Complex64 key v)
    | VComplex64p v => Complex64p key v
    | VComplex64s v => ret (Complex64s ext key v)
    | VFloat64 v => ret (Float64 key v)
    | VFloat64p v => Float64p key v
    | VFloat64s v => ret (Float64s ext key v)
    | VFloat32 v => ret (Float32 key v)
    | VFloat32p v => Float32p key v
    | VFloat32s v => ret (Float32s ext key v)
    | VInt v => ret (Int key v)
    | VIntp v => Intp key v
    | VInts v => ret (Ints ext key v)
    | VInt64 v => ret (Int64 key v)
    | VInt64p v => Int64p key v
    | VInt64s v => ret (Int64s ext key v)
    | VInt32 v => ret (Int32 key v)
    | VInt32p v => Int32p key v
    | VInt32s v => ret (Int32s ext key v)
    | VInt16 v => ret (Int16 key v)
    | VInt16p v => Int16p key v
    | VInt16s v => ret (Int16s ext key v)
    | VInt8 v => ret (Int8 key v)
    | VInt8p v => Int8p key v
    | VInt8s v => ret (Int8s ext key v)
    | VString v => ret (String key v)
    | VStringp v => Stringp key v
    | VStrings v => ret (Strings ext key v)
    | VUint v => ret (Uint key v)
    | VUintp v => Uintp key v
    | VUints v => ret (Uints ext key v)
    | VUint64 v => ret (Uint64 key v)
    | VUint64p v => Uint64p key v
    | VUint64s v => ret (Uint64s ext key v)
    | VUint32 v => ret (Uint32 key v)
    | VUint32p v => Uint32p key v
    | VUint32s v => ret (Uint32s ext key v)
    | VUint16 v => ret (Uint16 key v)
    | VUint16p v => Uint16p key v
    | VUint16s v => ret (Uint16s ext key v)
    | VUint8 v => ret (Uint8 key v)
    | VUint8p v => Uint8p key v
    | VBytes v => ret (Binary key v)
    | VUintptr v => ret (Uintptr key v)
    | VUintptrp v => Uintptrp key v
    | VUintptrs v => ret (Uintptrs ext key v)
    | VTime v => Time key v
    | VTimep v => Timep key v
    | VTimes v => ret (Times ext key v)
    | VDuration v => ret (Duration key v)
    | VDurationp v => Durationp key v
    | VDurations v => ret (Durations ext key v)
    | _ =>
        if implements iface.error value then ret (NamedError ext key value)
        else
          match value with
          | VErrors v => ret (Errors ext key v)
          | _ =>
              if implements iface.Stringer value then ret (Stringer key value)
              else
                match value with
                | VMapStringString v => Object key (VMapStringStringObject v)
                | VMapStringInterface v => Object key (VMapStringInterfaceObject v)
                | _ => ret (Reflect key value)
                end
          end
    end.

End Dispatch.

End zap.

(** ** Byte slices, the allocator and the pool

    A byte slice is a window on a backing array: [arr] names the array,
    [elems] are the [len] elements of the slice and [spare] the elements
    of the array past them, so that the capacity is the length of
    [elems ++ spare]. What [spare] holds is whatever earlier writes left
    there. Lengths are natural numbers: a byte slice is far shorter than
    2^62, so Go's [int] arithmetic on lengths does not wrap. *)

Module slices.

Local Open Scope nat_scope.
Local Open Scope list_scope.

Record slice : Type := mkSlice {
  arr : nat;
  elems : list byte;
  spare : list byte
}.

Definition len (s : slice) : nat := List.length (elems s).
Definition cap (s : slice) : nat := List.length (elems s) + List.length (spare s).

(** [len(s)] of a string is its number of bytes; a conversion of a
    string to bytes gives them in order. *)
Definition bytes_of (s : string) : list byte := list_byte_of_string s.

(** Modelled from the spec: [Pool], which is declared in a file of the
    package that is not among the sources. The design document has one
    homogeneous store of buffers per pool; a pool is named by a number. *)
Definition Pool : Type := nat.

(** Both buffer files declare the same struct. *)
Record Buffer : Type := mkBuffer {
  bs : slice;
  pool : Pool
}.

(** [b.bs = s] *)
Definition set_bs (b : Buffer) (s : slice) : Buffer := mkBuffer s (pool b).

(** The state the buffer operations run in: the next array the
    allocator hands out, and the buffers that were given back, each
    with its pool, most recent first. *)
Record State : Type := mkState {
  next_array : nat;
  pooled : list (Pool * Buffer)
}.

(** An operation returns [None] when it panics. *)
Definition M (A : Type) : Type := State -> option (A * State).

Definition ret {A : Type} (a : A) : M A := fun st => Some (a, st).

Definition bind {A B : Type} (m : M A) (k : A -> M B) : M B :=
  fun st =>
    match m st with
    | Some (a, st') => k a st'
    | None => None
    end.

Definition panic {A : Type} : M A := fun _ => None.

Notation "x <- m ;; k" := (bind m (fun x => k))
  (at level 100, m at next level, right associativity).

(** A freshly allocated, zeroed array. *)
Definition alloc : M nat :=
  fun st => Some (next_array st, mkState (S (next_array st)) (pooled st)).

(** [make([]byte, n, c)]. The runtime also refuses a capacity above its
    allocation limit, which depends on the platform; there is no limit
    here, so that [make] returns wherever the runtime does, with the
    same slice, and also above the limit, where the runtime panics. *)
Definition make (n c : nat) : M slice :=
  if c <? n then panic
  else
    a <- alloc ;;
    ret (mkSlice a (repeat x00 n) (repeat x00 (c - n))).

(** [s[:n]] *)
Definition reslice_to (s : slice) (n : nat) : M slice :=
  if cap s <? n then panic
  else
    let all := elems s ++ spare s in
    ret (mkSlice (arr s) (firstn n all) (skipn n all)).

(** [copy(dst[off:], src)], as it leaves [dst]: the bytes go into the
    array of [dst], as many as fit in its length. *)
Definition copy_at (dst : slice) (off : nat) (src : list byte) : M slice :=
  if len dst <? off then panic
  else
    let n := Nat.min (len dst - off) (List.length src) in
    ret (mkSlice (arr dst)
           (firstn off (elems dst) ++ firstn n src ++ skipn (off + n) (elems dst))
           (spare dst)).

Section Append.

(** The capacity the runtime picks when [append] has to grow a slice,
    from the old capacity and the length needed. The language only
    promises an array that is large enough. *)
Variable growslice : nat -> nat -> nat.

(** [append(s, v...)] *)
Definition append (s : slice) (v : list byte) : M slice :=
  let needed := len s + List.length v in
  if needed <=? cap s then
    ret (mkSlice (arr s) (elems s ++ v) (skipn (List.length v) (spare s)))
  else
    let newcap := Nat.max needed (growslice (cap s) needed) in
    a <- alloc ;;
    ret (mkSlice a (elems s ++ v) (repeat x00 (newcap - needed))).

End Append.

(** [s[i]] *)
Definition index (s : slice) (i : nat) : M byte :=
  match nth_error (elems s) i with
  | Some x => ret x
  | None => panic
  end.

(** A Go [error] value; [None] is nil. *)
Definition error : Type := option string.

(** Modelled from the spec: [Pool.put], which is declared in a file of
    the package that is not among the sources. The design document has
    the release operation return the instance to the pool, a store of
    reusable buffers. *)
Definition put (p : Pool) (b : Buffer) : M unit :=
  fun st => Some (tt, mkState (next_array st) ((p, b) :: pooled st)).

End slices.

(** ** Package [buffer]: [buffer/buffer.go] *)

Module buffer.

Import slices.
Local Open Scope nat_scope.
Local Open Scope list_scope.

Definition _size : nat := 1024.
Definition _minSize : nat := 64.
Definition _maxExcessCap : nat := 4.

Section WithRuntime.

Variable growslice : nat -> nat -> nat.

Definition AppendByte (v : byte) (b : Buffer) : M Buffer :=
  s <- append growslice (bs b) [v] ;;
  ret (set_bs b s).

Definition AppendBytes (v : list byte) (b : Buffer) : M Buffer :=
  if List.length v =? 0 then ret b
  else
    s <- append growslice (bs b) v ;;
    ret (set_bs b s).

Definition AppendString (s : string) (b : Buffer) : M Buffer :=
  if String.length s =? 0 then ret b
  else
    s' <- append growslice (bs b) (bytes_of s) ;;
    ret (set_bs b s').

End WithRuntime.

Definition Len (b : Buffer) : nat := len (bs b).

Definition Cap (b : Buffer) : nat := cap (bs b).

Definition Bytes (b : Buffer) : list byte := elems (bs b).

Definition Reset (b : Buffer) : M Buffer :=
  s <- reslice_to (bs b) 0 ;;
  ret (set_bs b s).

(** Returns the buffer as [Free] leaves it. *)
Definition Free (b : Buffer) : M Buffer :=
  let currentCap := cap (bs b) in
  b <- (if _size * _maxExcessCap <? currentCap then
          s <- make 0 _size ;;
          ret (set_bs b s)
        else if 0 <? len (bs b) then
          Reset b
        else
          ret b) ;;
  _ <- put (pool b) b ;;
  ret b.

(** [capacity] is an [int]: it may be negative. *)
Definition EnsureCapacity (capacity : Z) (b : Buffer) : M Buffer :=
  if (Z.of_nat (cap (bs b)) <? capacity)%Z then
    newBs <- make (len (bs b)) (Z.to_nat capacity) ;;
    newBs <- copy_at newBs 0 (elems (bs b)) ;;
    ret (set_bs b newBs)
  else
    ret b.

Definition TrimNewline (b : Buffer) : M Buffer :=
  let i := (Z.of_nat (len (bs b)) - 1)%Z in
  if (i >=? 0)%Z then
    c <- index (bs b) (Z.to_nat i) ;;
    if Byte.eqb c x0a then
      s <- reslice_to (bs b) (Z.to_nat i) ;;
      ret (set_bs b s)
    else
      ret b
  else
    ret b.

Section Writers.

Variable growslice : nat -> nat -> nat.

(** Returns the buffer as [Write] leaves it, with the two results. *)
Definition Write (p : list byte) (b : Buffer) : M (Buffer * (nat * error)) :=
  if List.length p =? 0 then ret (b, (0, None))
  else
    let requiredCap := len (bs b) + List.length p in
    b <- (if cap (bs b) <? requiredCap then
            EnsureCapacity (Z.of_nat requiredCap) b
          else
            ret b) ;;
    s <- append growslice (bs b) p ;;
    ret (set_bs b s, (List.length p, None)).

Definition WriteByte (v : byte) (b : Buffer) : M (Buffer * error) :=
  b <- AppendByte growslice v b ;;
  ret (b, None).

Definition WriteString (s : string) (b : Buffer) : M (Buffer * (nat * error)) :=
  if String.length s =? 0 then ret (b, (0, None))
  else
    let requiredCap := len (bs b) + String.length s in
    b <- (if cap (bs b) <? requiredCap then
            EnsureCapacity (Z.of_nat requiredCap) b
          else
            ret b) ;;
    b <- AppendString growslice s b ;;
    ret (b, (String.length s, None)).

End Writers.

(** [String()]: [string(b.bs)], a copy of the content. *)
Definition String (b : Buffer) : string := string_of_list_byte (elems (bs b)).

End buffer.

(** ** Package [buffer]: the second buffer file (unnamed/part_000) *)

Module part_000.

Import slices.
Local Open Scope nat_scope.
Local Open Scope list_scope.

Definition _size : nat := 1024.

Section WithRuntime.

Variable growslice : nat -> nat -> nat.

Definition AppendByte (v : byte) (b : Buffer) : M Buffer :=
  s <- append growslice (bs b) [v] ;;
  ret (set_bs b s).

Definition AppendBytes (v : list byte) (b : Buffer) : M Buffer :=
  s <- append growslice (bs b) v ;;
  ret (set_bs b s).

End WithRuntime.

Definition AppendString (s : string) (b : Buffer) : M Buffer :=
  if String.length s =? 0 then ret b
  else
    let l := len (bs b) in
    let needed := String.length s in
    let capLeft := cap (bs b) - l in
    if needed =? 0 then ret b
    else if needed <=? capLeft then
      newSlice <- reslice_to (bs b) (l + needed) ;;
      newSlice <- copy_at newSlice l (bytes_of s) ;;
      ret (set_bs b newSlice)
    else
      let newCap := cap (bs b) * 2 in
      let newCap := if newCap <? l + needed then l + needed else newCap in
      let newCap := if newCap <? _size then _size else newCap in
      newBs <- make (l + needed) newCap ;;
      newBs <- copy_at newBs 0 (elems (bs b)) ;;
      newBs <- copy_at newBs l (bytes_of s) ;;
      ret (set_bs b newBs).

Definition Len (b : Buffer) : nat := len (bs b).

Definition Cap (b : Buffer) : nat := cap (bs b).

Definition Bytes (b : Buffer) : list byte := elems (bs b).

Definition Reset (b : Buffer) : M Buffer :=
  s <- reslice_to (bs b) 0 ;;
  ret (set_bs b s).

(** Returns the buffer as [Free] leaves it. *)
Definition Free (b : Buffer) : M Buffer :=
  _ <- put (pool b) b ;;
  ret b.

Section Writers.

Variable growslice : nat -> nat -> nat.

(** Returns the buffer as [Write] leaves it, with the two results. *)
Definition Write (p : list byte) (b : Buffer) : M (Buffer * (nat * error)) :=
  s <- append growslice (bs b) p ;;
  ret (set_bs b s, (List.length p, None)).

Definition WriteByte (v : byte) (b : Buffer) : M (Buffer * error) :=
  b <- AppendByte growslice v b ;;
  ret (b, None).

End Writers.

Definition WriteString (s : string) (b : Buffer) : M (Buffer * (nat * error)) :=
  b <- AppendString s b ;;
  ret (b, (String.length s, None)).

Definition TrimNewline (b : Buffer) : M Buffer :=
  let i := (Z.of_nat (len (bs b)) - 1)%Z in
  if (i >=? 0)%Z then
    c <- index (bs b) (Z.to_nat i) ;;
    if Byte.eqb c x0a then
      s <- reslice_to (bs b) (Z.to_nat i) ;;
      ret (set_bs b s)
    else
      ret b
  else
    ret b.

(** [String()]: [string(b.bs)], a copy of the content. *)
Definition String (b : Buffer) : string := string_of_list_byte (elems (bs b)).

End part_000.

(** ** Vocabulary of the properties of [field.go] *)

Module zap_spec.

Import zapcore zap.
Local Open Scope list_scope.

(** The nil representation of a pointer-typed field: the reflected
    variant with a nil payload, under the requested key. *)
Definition nil_representation (key : string) : Field :=
  mkField key ReflectType 0 "" VNil.

(** A constructor that reads no package-level variable, seen as one
    that does. *)
Definition pure {A : Type} (T : string -> A -> Field) : string -> A -> Pkg Field :=
  fun key v => ret (T key v).

(** [Tp] is the pointer form of [T]: on the nil pointer it gives the nil
    representation, on a pointer to [v] what [T] gives on [v]. *)
Definition pointer_form {A : Type}
    (Tp : string -> option A -> Pkg Field) (T : string -> A -> Pkg Field) : Prop :=
  forall key : string,
    Tp key None init = (nil_representation key, init) /\
    forall v : A, Tp key (Some v) init = T key v init.

(** A function leaves the package-level variables as it found them. *)
Definition unchanged {A : Type} (m : Pkg A) : Prop :=
  forall g : Globals, snd (m g) = g.

(** The instant of [t] in nanoseconds since the Unix epoch, as a
    mathematical integer. *)
Definition unix_nanoseconds (t : time.Time) : Z :=
  time.unixSec t * 1000000000 + time.nsec t.

(** Whether the instant fits a signed 64-bit count of nanoseconds. *)
Definition in_int64_nanoseconds (t : time.Time) : bool :=
  (goint.MinInt64 <=? unix_nanoseconds t) && (unix_nanoseconds t <=? goint.MaxInt64).

(** The two's-complement reading of an unsigned 64-bit value. *)
Definition as_signed64 (v : Z) : Z :=
  if v <? 2 ^ 63 then v else v - 2 ^ 64.

(** Whether the dynamic type of a value is one that a concrete-type case
    of [Any] names (lines 441 to 559 of the source). *)
Definition concrete_case (value : Value) : bool :=
  match value with
  | VNil | VMapStringString _ | VMapStringInterface _ | VDictObject _
  | VMapStringStringObject _ | VMapStringInterfaceObject _ | VLocation _
  | VOther _ _ _ => false
  | _ => true
  end.

(** For a value whose static type is the parameter type of a primitive
    constructor (in its plain, pointer or slice form), the direct call of
    that constructor; [None] for any other value. A byte slice, which
    is the slice form of [uint8] and the parameter of both [Binary] and
    [ByteString], has no row: no constructor is the one of its type. *)
Definition direct_constructor (ext : Externals) (key : string) (value : Value)
    : option (Pkg Field) :=
  match value with
  | VBool v => Some (pure Bool key v)
  | VBoolp v => Some (Boolp key v)
  | VBools v => Some (pure (Bools ext) key v)
  | VComplex128 v => Some (pure Complex128 key v)
  | VComplex128p v => Some (Complex128p key v)
  | VComplex128s v => Some (pure (Complex128s ext) key v)
  | VComplex64 v => Some (pure Complex64 key v)
  | VComplex64p v => Some (Complex64p key v)
  | VComplex64s v => Some (pure (Complex64s ext) key v)
  | VFloat64 v => Some (pure Float64 key v)
  | VFloat64p v => Some (Float64p key v)
  | VFloat64s v => Some (pure (Float64s ext) key v)
  | VFloat32 v => Some (pure Float32 key v)
  | VFloat32p v => Some (Float32p key v)
  | VFloat32s v => Some (pure (Float32s ext) key v)
  | VInt v => Some (pure Int key v)
  | VIntp v => Some (Intp key v)
  | VInts v => Some (pure (Ints ext) key v)
  | VInt64 v => Some (pure Int64 key v)
  | VInt64p v => Some (Int64p key v)
  | VInt64s v => Some (pure (Int64s ext) key v)
  | VInt32 v => Some (pure Int32 key v)
  | VInt32p v => Some (Int32p key v)
  | VInt32s v => Some (pure (Int32s ext) key v)
  | VInt16 v => Some (pure Int16 key v)
  | VInt16p v => Some (Int16p key v)
  | VInt16s v => Some (pure (Int16s ext) key v)
  | VInt8 v => Some (pure Int8 key v)
  | VInt8p v => Some (Int8p key v)
  | VInt8s v => Some (pure (Int8s ext) key v)
  | VString v => Some (pure String key v)
  | VStringp v => Some (Stringp key v)
  | VStrings v => Some (pure (Strings ext) key v)
  | VUint v => Some (pure Uint key v)
  | VUintp v => Some (Uintp key v)
  | VUints v => Some (pure (Uints ext) key v)
  | VUint64 v => Some (pure Uint64 key v)
  | VUint64p v => Some (Uint64p key v)
  | VUint64s v => Some (pure (Uint64s ext) key v)
  | VUint32 v => Some (pure Uint32 key v)
  | VUint32p v => Some (Uint32p key v)
  | VUint32s v => Some (pure (Uint32s ext) key v)
  | VUint16 v => Some (pure Uint16 key v)
  | VUint16p v => Some (Uint16p key v)
  | VUint16s v => Some (pure (Uint16s ext) key v)
  | VUint8 v => Some (pure Uint8 key v)
  | VUint8p v => Some (Uint8p key v)
  | VUintptr v => Some (pure Uintptr key v)
  | VUintptrp v => Some (Uintptrp key v)
  | VUintptrs v => Some (pure (Uintptrs ext) key v)
  | VTime v => Some (Time key v)
  | VTimep v => Some (Timep key v)
  | VTimes v => Some (pure (Times ext) key v)
  | VDuration v => Some (pure Duration key v)
  | VDurationp v => Some (Durationp key v)
  | VDurations v => Some (pure (Durations ext) key v)
  | _ => None
  end.

(** A call of a function of the package. [call_pure] stands for the
    constructors that read no package-level variable, by their result. *)
Inductive Call : Type :=
| call_pure (f : Field)
| call_nilField (key : string)
| call_Boolp (key : string) (val : option bool)
| call_Complex128p (key : string) (val : option math.complex128)
| call_Complex64p (key : string) (val : option math.complex64)
| call_Float64p (key : string) (val : option math.float64)
| call_Float32p (key : string) (val : option math.float32)
| call_Intp (key : string) (val : option Z)
| call_Int64p (key : string) (val : option Z)
| call_Int32p (key : string) (val : option Z)
| call_Int16p (key : string) (val : option Z)
| call_Int8p (key : string) (val : option Z)
| call_Stringp (key : string) (val : option string)
| call_Uintp (key : string) (val : option Z)
| call_Uint64p (key : string) (val : option Z)
| call_Uint32p (key : string) (val : option Z)
| call_Uint16p (key : string) (val : option Z)
| call_Uint8p (key : string) (val : option Z)
| call_Uintptrp (key : string) (val : option Z)
| call_Time (key : string) (val : time.Time)
| call_Timep (key : string) (val : option time.Time)
| call_Durationp (key : string) (val : option time.Duration)
| call_Object (key : string) (val : Value)
| call_Dict (key : string) (val : list Field)
| call_Any (key : string) (value : Value).

Definition exec (ext : Externals) (c : Call) : Pkg Field :=
  match c with
  | call_pure f => ret f
  | call_nilField key => nilField key
  | call_Boolp key val => Boolp key val
  | call_Complex128p key val => Complex128p key val
  | call_Complex64p key val => Complex64p key val
  | call_Float64p key val => Float64p key val
  | call_Float32p key val => Float32p key val
  | call_Intp key val => Intp key val
  | call_Int64p key val => Int64p key val
  | call_Int32p key val => Int32p key val
  | call_Int16p key val => Int16p key val
  | call_Int8p key val => Int8p key val
  | call_Stringp key val => Stringp key val
  | call_Uintp key val => Uintp key val
  | call_Uint64p key val => Uint64p key val
  | call_Uint32p key val => Uint32p key val
  | call_Uint16p key val => Uint16p key val
  | call_Uint8p key val => Uint8p key val
  | call_Uintptrp key val => Uintptrp key val
  | call_Time key val => Time key val
  | call_Timep key val => Timep key val
  | call_Durationp key val => Durationp key val
  | call_Object key val => Object key val
  | call_Dict key val => Dict key val
  | call_Any key value => Any ext key value
  end.

(** The calls of a list one after the other, each on the variables as
    the one before left them. *)
Fixpoint exec_all (ext : Externals) (cs : list Call) : Pkg (list Field) :=
  match cs with
  | [] => ret []
  | c :: cs =>
      f <- exec ext c ;;
      fs <- exec_all ext cs ;;
      ret (f :: fs)
  end.

(** Modelled from the spec: [Array], the slice constructors, [NamedError]
    and [Errors], which are declared in files of the package that are not
    among the sources. The design document gives a field an
    array-marshaler reference and has an error value become a named-error
    field. This instance only serves to run [Any] on concrete inputs. *)
Definition sample_externals : Externals := {|
  Array := fun key v => mkField key ArrayMarshalerType 0 "" v;
  Bools := fun key v => mkField key ArrayMarshalerType 0 "" (VBools v);
  Complex128s := fun key v => mkField key ArrayMarshalerType 0 "" (VComplex128s v);
  Complex64s := fun key v => mkField key ArrayMarshalerType 0 "" (VComplex64s v);
  Float64s := fun key v => mkField key ArrayMarshalerType 0 "" (VFloat64s v);
  Float32s := fun key v => mkField key ArrayMarshalerType 0 "" (VFloat32s v);
  Ints := fun key v => mkField key ArrayMarshalerType 0 "" (VInts v);
  Int64s := fun key v => mkField key ArrayMarshalerType 0 "" (VInt64s v);
  Int32s := fun key v => mkField key ArrayMarshalerType 0 "" (VInt32s v);
  Int16s := fun key v => mkField key ArrayMarshalerType 0 "" (VInt16s v);
  Int8s := fun key v => mkField key ArrayMarshalerType 0 "" (VInt8s v);
  Strings := fun key v => mkField key ArrayMarshalerType 0 "" (VStrings v);
  Uints := fun key v => mkField key ArrayMarshalerType 0 "" (VUints v);
  Uint64s := fun key v => mkField key ArrayMarshalerType 0 "" (VUint64s v);
  Uint32s := fun key v => mkField key ArrayMarshalerType 0 "" (VUint32s v);
  Uint16s := fun key v => mkField key ArrayMarshalerType 0 "" (VUint16s v);
  Uintptrs := fun key v => mkField key ArrayMarshalerType 0 "" (VUintptrs v);
  Times := fun key v => mkField key ArrayMarshalerType 0 "" (VTimes v);
  Durations := fun key v => mkField key ArrayMarshalerType 0 "" (VDurations v);
  NamedError := fun key v => mkField key ErrorType 0 "" v;
  Errors := fun key v => mkField key ArrayMarshalerType 0 "" (VErrors v)
|}.

(** The key a call asks for ([call_pure] stands for its result). *)
Definition requested_key (c : Call) : string :=
  match c with
  | call_pure f => Key f
  | call_nilField key => key
  | call_Boolp key _ => key
  | call_Complex128p key _ => key
  | call_Complex64p key _ => key
  | call_Float64p key _ => key
  | call_Float32p key _ => key
  | call_Intp key _ => key
  | call_Int64p key _ => key
  | call_Int32p key _ => key
  | call_Int16p key _ => key
  | call_Int8p key _ => key
  | call_Stringp key _ => key
  | call_Uintp key _ => key
  | call_Uint64p key _ => key
  | call_Uint32p key _ => key
  | call_Uint16p key _ => key
  | call_Uint8p key _ => key
  | call_Uintptrp key _ => key
  | call_Time key _ => key
  | call_Timep key _ => key
  | call_Durationp key _ => key
  | call_Object key _ => key
  | call_Dict key _ => key
  | call_Any key _ => key
  end.

(** A constructor puts the key it is given in the field it returns. *)
Definition keeps_key {A : Type} (T : string -> A -> Field) : Prop :=
  forall (key : string) (v : A), Key (T key v) = key.

(** The constructors declared outside [field.go] all do. *)
Definition externals_keep_key (ext : Externals) : Prop :=
  keeps_key (Array ext) /\ keeps_key (Bools ext) /\
  keeps_key (Complex128s ext) /\ keeps_key (Complex64s ext) /\
  keeps_key (Float64s ext) /\ keeps_key (Float32s ext) /\
  keeps_key (Ints ext) /\ keeps_key (Int64s ext) /\ keeps_key (Int32s ext) /\
  keeps_key (Int16s ext) /\ keeps_key (Int8s ext) /\ keeps_key (Strings ext) /\
  keeps_key (Uints ext) /\ keeps_key (Uint64s ext) /\ keeps_key (Uint32s ext) /\
  keeps_key (Uint16s ext) /\ keeps_key (Uintptrs ext) /\
  keeps_key (Times ext) /\ keeps_key (Durations ext) /\
  keeps_key (NamedError ext) /\ keeps_key (Errors ext).

End zap_spec.

(** ** Vocabulary of the properties of the buffer *)

Module buffer_spec.

Import slices.
Local Open Scope nat_scope.
Local Open Scope list_scope.

(** One append call on a buffer. *)
Inductive Op : Type :=
| op_AppendByte (v : byte)
| op_AppendBytes (v : list byte)
| op_AppendString (s : string).

(** The bytes a call appends. *)
Definition payload (o : Op) : list byte :=
  match o with
  | op_AppendByte v => [v]
  | op_AppendBytes v => v
  | op_AppendString s => bytes_of s
  end.

(** The bytes a sequence of calls appends, in order. *)
Definition appended (ops : list Op) : list byte := flat_map payload ops.

(** The three append methods of a buffer file. *)
Record Appends : Type := {
  AppendByte : byte -> Buffer -> M Buffer;
  AppendBytes : list byte -> Buffer -> M Buffer;
  AppendString : string -> Buffer -> M Buffer
}.

Definition buffer_go (growslice : nat -> nat -> nat) : Appends := {|
  AppendByte := buffer.AppendByte growslice;
  AppendBytes := buffer.AppendBytes growslice;
  AppendString := buffer.AppendString growslice
|}.

Definition part_000_go (growslice : nat -> nat -> nat) : Appends := {|
  AppendByte := part_000.AppendByte growslice;
  AppendBytes := part_000.AppendBytes growslice;
  AppendString := part_000.AppendString
|}.

Definition call (A : Appends) (o : Op) (b : Buffer) : M Buffer :=
  match o with
  | op_AppendByte v => AppendByte A v b
  | op_AppendBytes v => AppendBytes A v b
  | op_AppendString s => AppendString A s b
  end.

(** The calls of a list one after the other on the same buffer. *)
Fixpoint call_all (A : Appends) (ops : list Op) (b : Buffer) : M Buffer :=
  match ops with
  | [] => ret b
  | o :: ops =>
      b' <- call A o b ;;
      call_all A ops b'
  end.

(** Every append method of a file returns, and leaves the old
    content followed by the bytes it was given. *)
Definition appends_payload (A : Appends) : Prop :=
  forall (o : Op) (b : Buffer) (st : State),
    exists (b' : Buffer) (st' : State),
      call A o b st = Some (b', st') /\
      elems (bs b') = elems (bs b) ++ payload o.

(** A growth policy to run [append] with on concrete inputs: doubling. *)
Definition doubling (oldcap needed : nat) : nat := 2 * oldcap.

(** A buffer as a pool hands it out: empty, with the default capacity. *)
Definition fresh_buffer : Buffer := mkBuffer (mkSlice 0 [] (repeat x00 1024)) 0.

Definition fresh_state : State := mkState 1 [].

(** A buffer that holds one byte in an array of 5000. *)
Definition grown_buffer : Buffer := mkBuffer (mkSlice 0 [x61] (repeat x00 4999)) 0.

(** Every buffer that was given back is empty and holds at most 4096
    bytes of capacity. *)
Definition pool_bounded (st : State) : Prop :=
  Forall (fun pb : Pool * Buffer =>
            len (bs (snd pb)) = 0 /\ cap (bs (snd pb)) <= 4096) (pooled st).

(** Strings one after the other. *)
Definition joined (ss : list string) : string := fold_right String.append "" ss.

(** One call of [Write] or [WriteString] of [buffer/buffer.go]. *)
Inductive WriteOp : Type :=
| op_Write (p : list byte)
| op_WriteString (s : string).

(** The bytes a write is given. *)
Definition written (w : WriteOp) : list byte :=
  match w with
  | op_Write p => p
  | op_WriteString s => bytes_of s
  end.

(** The write on a buffer, its two results dropped. *)
Definition write (growslice : nat -> nat -> nat) (w : WriteOp) (b : Buffer) : M Buffer :=
  match w with
  | op_Write p => r <- buffer.Write growslice p b ;; ret (fst r)
  | op_WriteString s => r <- buffer.WriteString growslice s b ;; ret (fst r)
  end.

(** The writes of a list one after the other on the same buffer. *)
Fixpoint write_all (growslice : nat -> nat -> nat) (ws : list WriteOp) (b : Buffer)
    : M Buffer :=
  match ws with
  | [] => ret b
  | w :: ws =>
      b' <- write growslice w b ;;
      write_all growslice ws b'
  end.

End buffer_spec.

(** * Properties of [field.go] *)

Module zap_proofs.

Import zapcore zap zap_spec.
Local Open Scope list_scope.

Lemma int64_small (x : Z) :
  goint.MinInt64 <= x <= goint.MaxInt64 -> goint.int64 x = x.
Proof.
  unfold goint.MinInt64, goint.MaxInt64, goint.int64. intros H.
  rewrite Z.mod_small by lia. lia.
Qed.

Lemma int64_as_signed64 (v : Z) :
  0 <= v < 2 ^ 64 -> goint.int64 v = as_signed64 v.
Proof.
  unfold goint.int64, as_signed64. intros H.
  destruct (Z.ltb_spec v (2 ^ 63)).
  - rewrite Z.mod_small by lia. lia.
  - replace (v + 2 ^ 63) with ((v - 2 ^ 63) + 1 * 2 ^ 64) by lia.
    rewrite Z.mod_add by lia. rewrite Z.mod_small by lia. lia.
Qed.

Lemma int64_uint64 (v : Z) : goint.int64 (goint.uint64 v) = goint.int64 v.
Proof.
  unfold goint.int64, goint.uint64.
  rewrite Zplus_mod_idemp_l. reflexivity.
Qed.

Lemma uint64_as_signed64 (v : Z) :
  0 <= v < 2 ^ 64 -> goint.uint64 (as_signed64 v) = v.
Proof.
  unfold goint.uint64, as_signed64. intros H.
  destruct (Z.ltb_spec v (2 ^ 63)).
  - apply Z.mod_small. lia.
  - replace (v - 2 ^ 64) with (v + (-1) * 2 ^ 64) by lia.
    rewrite Z.mod_add by lia. apply Z.mod_small. lia.
Qed.

(** *** The two encodings of a time *)

Lemma min_bound :
  _minTimeInt64 init =
  {| time.unixSec := -9223372037; time.nsec := 145224192; time.loc := Some time.Local |}.
Proof. reflexivity. Qed.

Lemma max_bound :
  _maxTimeInt64 init =
  {| time.unixSec := 9223372036; time.nsec := 854775807; time.loc := Some time.Local |}.
Proof. reflexivity. Qed.

Ltac split_comparisons :=
  repeat match goal with
    | |- context [Z.ltb ?a ?b] => destruct (Z.ltb_spec a b)
    | |- context [Z.leb ?a ?b] => destruct (Z.leb_spec a b)
    | |- context [Z.eqb ?a ?b] => destruct (Z.eqb_spec a b)
    end.

Lemma out_of_range_test (t : time.Time) :
  0 <= time.nsec t < 1000000000 ->
  time.Before t (_minTimeInt64 init) || time.After t (_maxTimeInt64 init)
  = negb (in_int64_nanoseconds t).
Proof.
  intros H. rewrite min_bound, max_bound.
  unfold time.Before, time.After, in_int64_nanoseconds, unix_nanoseconds,
    goint.MinInt64, goint.MaxInt64.
  cbn [time.unixSec time.nsec]. rewrite !Z.gtb_ltb.
  split_comparisons; cbn; try reflexivity; lia.
Qed.

Lemma UnixNano_exact (t : time.Time) :
  0 <= time.nsec t < 1000000000 ->
  in_int64_nanoseconds t = true ->
  time.UnixNano t = unix_nanoseconds t.
Proof.
  intros H R. unfold in_int64_nanoseconds in R.
  apply andb_prop in R. destruct R as [R1 R2].
  apply Z.leb_le in R1. apply Z.leb_le in R2.
  unfold time.UnixNano. fold (unix_nanoseconds t).
  rewrite (int64_small (time.nsec t)).
  - apply int64_small. unfold unix_nanoseconds in *. lia.
  - unfold goint.MinInt64, goint.MaxInt64. lia.
Qed.

(** C7. For every key and every time [t] (whose nanosecond part lies
    within the second, as in every [time.Time]): when the instant of [t]
    fits a signed 64-bit count of nanoseconds since the epoch, [Time]
    returns the compact encoding, with the [TimeType] discriminant, the
    Unix nanoseconds of [t] as the integer payload and the location of
    [t] in the reference slot; otherwise it returns the full encoding,
    with the [TimeFullType] discriminant and [t] itself in the reference
    slot. *)
Theorem Time_two_encodings (key : string) (t : time.Time) :
  0 <= time.nsec t < 1000000000 ->
  Time key t init =
  (if in_int64_nanoseconds t
   then mkField key TimeType (unix_nanoseconds t) "" (VLocation (time.Location_of t))
   else mkField key TimeFullType 0 "" (VTime t),
   init).
Proof.
  intros H. unfold Time, bind, load. rewrite (out_of_range_test t H).
  destruct (in_int64_nanoseconds t) eqn:R; cbn [negb]; unfold ret.
  - rewrite (UnixNano_exact t H R). reflexivity.
  - reflexivity.
Qed.

Lemma Time_two_encodings_witness :
  Time "at" {| time.unixSec := 1700000000; time.nsec := 5; time.loc := None |} init =
  (mkField "at" TimeType 1700000000000000005 "" (VLocation time.UTC), init) /\
  Time "at" {| time.unixSec := 9223372037; time.nsec := 0; time.loc := None |} init =
  (mkField "at" TimeFullType 0 ""
     (VTime {| time.unixSec := 9223372037; time.nsec := 0; time.loc := None |}), init).
Proof.
  split.
  - apply (Time_two_encodings "at"
             {| time.unixSec := 1700000000; time.nsec := 5; time.loc := None |}).
    cbn. lia.
  - apply (Time_two_encodings "at"
             {| time.unixSec := 9223372037; time.nsec := 0; time.loc := None |}).
    cbn. lia.
Defined.

(** *** Unsigned values in the signed payload *)

(** C9. [Uint], [Uint64], [Uint32], [Uint16], [Uint8], [Uintptr] and
    their pointer forms store an unsigned value [v] below 2^64 in the
    signed integer payload as its two's-complement reading: [v] itself
    below 2^63 and [v - 2^64] from there on, which is negative; read back
    as a [uint64] the payload is [v] again. *)
Theorem unsigned_payload_twos_complement (key : string) (v : Z) :
  0 <= v < 2 ^ 64 ->
  (Integer (Uint key v) = as_signed64 v /\
   Integer (Uint64 key v) = as_signed64 v /\
   Integer (Uint32 key v) = as_signed64 v /\
   Integer (Uint16 key v) = as_signed64 v /\
   Integer (Uint8 key v) = as_signed64 v /\
   Integer (Uintptr key v) = as_signed64 v) /\
  (forall g : Globals,
     Integer (fst (Uintp key (Some v) g)) = as_signed64 v /\
     Integer (fst (Uint64p key (Some v) g)) = as_signed64 v /\
     Integer (fst (Uint32p key (Some v) g)) = as_signed64 v /\
     Integer (fst (Uint16p key (Some v) g)) = as_signed64 v /\
     Integer (fst (Uint8p key (Some v) g)) = as_signed64 v /\
     Integer (fst (Uintptrp key (Some v) g)) = as_signed64 v) /\
  (2 ^ 63 - 1 < v -> Integer (Uint64 key v) < 0) /\
  goint.uint64 (Integer (Uint64 key v)) = v.
Proof.
  intros H. pose proof (int64_as_signed64 v H) as E.
  repeat split; cbn; rewrite ?int64_uint64, ?E; try reflexivity.
  - intros L. unfold as_signed64.
    destruct (Z.ltb_spec v (2 ^ 63)); lia.
  - apply uint64_as_signed64. exact H.
Qed.

Lemma unsigned_payload_twos_complement_witness :
  Integer (Uint64 "n" 18446744073709551615) = -1 /\
  Integer (Uint8 "n" 255) = 255 /\
  goint.uint64 (Integer (Uint64 "n" 18446744073709551615)) = 18446744073709551615.
Proof.
  assert (R : 0 <= 18446744073709551615 < 2 ^ 64) by (cbn; lia).
  assert (R8 : 0 <= 255 < 2 ^ 64) by (cbn; lia).
  pose proof (unsigned_payload_twos_complement "n" 18446744073709551615 R) as [[_ [A _]] [_ [_ B]]].
  pose proof (unsigned_payload_twos_complement "n" 255 R8) as [[_ [_ [_ [_ [C _]]]]] _].
  split; [ | split ].
  - rewrite A. reflexivity.
  - rewrite C. reflexivity.
  - exact B.
Defined.

(** *** Pointer constructors and the nil representation *)

Lemma nilField_init (key : string) :
  nilField key init = (nil_representation key, init).
Proof. reflexivity. Qed.

(** C6. Each pointer-typed constructor, on a nil pointer, returns the nil
    representation (the reflected variant with a nil payload) under the
    requested key, and on a pointer to [v] returns the field the
    corresponding non-pointer constructor returns on [v]. *)
Theorem pointer_constructors :
  pointer_form Boolp (pure Bool) /\
  pointer_form Intp (pure Int) /\
  pointer_form Int64p (pure Int64) /\
  pointer_form Int32p (pure Int32) /\
  pointer_form Int16p (pure Int16) /\
  pointer_form Int8p (pure Int8) /\
  pointer_form Stringp (pure String) /\
  pointer_form Uintp (pure Uint) /\
  pointer_form Uint64p (pure Uint64) /\
  pointer_form Uint32p (pure Uint32) /\
  pointer_form Uint16p (pure Uint16) /\
  pointer_form Uint8p (pure Uint8) /\
  pointer_form Uintptrp (pure Uintptr) /\
  pointer_form Float64p (pure Float64) /\
  pointer_form Float32p (pure Float32) /\
  pointer_form Complex128p (pure Complex128) /\
  pointer_form Complex64p (pure Complex64) /\
  pointer_form Timep Time /\
  pointer_form Durationp (pure Duration).
Proof.
  unfold pointer_form, pure.
  repeat match goal with |- _ /\ _ => split end;
    intros key; (split; [ reflexivity | intros v ]);
    try reflexivity.
  unfold Uintp, Uint, Uint64, ret. rewrite int64_uint64. reflexivity.
Qed.

(** C10. [Object] on the nil interface returns the nil representation
    under the given key, and not a field of the object-marshaler variant
    holding a nil reference; [Any] on the nil interface returns the same
    nil representation. *)
Theorem Object_nil (key : string) :
  Object key VNil init = (nil_representation key, init) /\
  Type_ (fst (Object key VNil init)) <> ObjectMarshalerType /\
  forall ext : Externals, Any ext key VNil init = (nil_representation key, init).
Proof.
  split; [ reflexivity | split ].
  - cbn. discriminate.
  - intros ext. reflexivity.
Qed.

(** A non-nil interface that holds a nil pointer of a type with a
    [MarshalLogObject] method is not the nil interface: [Any] passes it
    to [Object], which stores it in an object-marshaler field. *)
Lemma Any_nil_pointer_in_interface (ext : Externals) (key name : string) :
  let p := VOther name only_MarshalLogObject "nil" in
  Any ext key p init = (mkField key ObjectMarshalerType 0 "" p, init).
Proof. reflexivity. Qed.

(** *** Examples of the dispatch *)

(** A byte slice goes to [Binary]; [ByteString], which takes a byte
    slice as well, is never chosen by [Any]. *)
Example Any_bytes_is_Binary :
  Any sample_externals "raw" (VBytes [x68; x69]) init
  = (Binary "raw" [x68; x69], init) /\
  Binary "raw" [x68; x69] <> ByteString "raw" [x68; x69].
Proof. split; [ reflexivity | discriminate ]. Qed.

(** A location is a stringer of no concrete case: the stringer field. *)
Example Any_location_is_Stringer :
  Any sample_externals "zone" (VLocation time.UTC) init
  = (Stringer "zone" (VLocation time.UTC), init).
Proof. reflexivity. Qed.

(** An error that is also a stringer: the error case comes first. *)
Example Any_error_before_Stringer :
  let e := VOther "*errors.errorString"
             {| isObjectMarshaler := false; isArrayMarshaler := false;
                isError := true; isStringer := true |} "boom" in
  Any sample_externals "err" e init = (NamedError sample_externals "err" e, init).
Proof. reflexivity. Qed.

(** A value that is both an object and an array marshaler: [Object]. *)
Example Any_object_before_array :
  let m := VOther "both"
             {| isObjectMarshaler := true; isArrayMarshaler := true;
                isError := false; isStringer := true |} "m" in
  Any sample_externals "m" m init = (mkField "m" ObjectMarshalerType 0 "" m, init).
Proof. reflexivity. Qed.

(** A map from strings to integers is of no case: the reflected field. *)
Example Any_other_map_is_Reflect :
  let m := VOther "map[string]int" no_methods "map[a:1]" in
  Any sample_externals "k" m init = (Reflect "k" m, init).
Proof. reflexivity. Qed.

(** *** The package-level variables are never written *)

Lemma ret_unchanged {A : Type} (a : A) : unchanged (ret a).
Proof. intros g. reflexivity. Qed.

Lemma bind_unchanged {A B : Type} (m : Pkg A) (k : A -> Pkg B) :
  unchanged m -> (forall a, unchanged (k a)) -> unchanged (bind m k).
Proof.
  intros Hm Hk g. unfold bind. specialize (Hm g).
  destruct (m g) as [a g']. cbn in Hm. subst g'. apply Hk.
Qed.

Lemma nilField_unchanged (key : string) : unchanged (nilField key).
Proof. intros g. reflexivity. Qed.

Lemma Time_unchanged (key : string) (val : time.Time) : unchanged (Time key val).
Proof.
  intros g. unfold Time, bind, load.
  destruct (time.Before val (_minTimeInt64 g) || time.After val (_maxTimeInt64 g));
    reflexivity.
Qed.

Lemma Timep_unchanged (key : string) (val : option time.Time) :
  unchanged (Timep key val).
Proof. destruct val; [ apply Time_unchanged | apply nilField_unchanged ]. Qed.

Lemma Object_unchanged (key : string) (val : Value) : unchanged (Object key val).
Proof. intros g. destruct val; reflexivity. Qed.

Create HintDb unchanged.

#[local] Hint Resolve ret_unchanged nilField_unchanged Time_unchanged
  Timep_unchanged Object_unchanged : unchanged.

Ltac pointer_unchanged :=
  match goal with
  | |- unchanged (_ _ ?val) => destruct val; cbn; auto with unchanged
  end.

Lemma Any_unchanged (ext : Externals) (key : string) (value : Value) :
  unchanged (Any ext key value).
Proof.
  unfold Any.
  destruct (implements iface.ObjectMarshaler value); [ apply Object_unchanged | ].
  destruct (implements iface.ArrayMarshaler value); [ apply ret_unchanged | ].
  destruct (implements iface.error value) eqn:He;
    destruct (implements iface.Stringer value) eqn:Hs;
    destruct value; unfold dictField; auto with unchanged; pointer_unchanged.
Qed.

Lemma exec_unchanged (ext : Externals) (c : Call) : unchanged (exec ext c).
Proof.
  destruct c; cbn [exec]; unfold Dict, dictField;
    auto using Any_unchanged with unchanged; pointer_unchanged.
Qed.

Lemma exec_all_unchanged (ext : Externals) (cs : list Call) :
  unchanged (exec_all ext cs).
Proof.
  induction cs as [ | c cs IH ]; cbn [exec_all].
  - apply ret_unchanged.
  - apply bind_unchanged; [ apply exec_unchanged | intros f ].
    apply bind_unchanged; [ exact IH | intros fs; apply ret_unchanged ].
Qed.

(** C8. No call of the package writes the shared template
    [nilReflectField]: any sequence of calls leaves the package-level
    variables as they were, so that from their initial values the
    template still has the empty key and the nil payload; [nilField]
    sets the key on its own copy, and the results of two calls carry
    their own keys over the same template. *)
Theorem nilReflectField_never_written (ext : Externals) (cs : list Call) :
  (forall g : Globals, snd (exec_all ext cs g) = g) /\
  Key (nilReflectField (snd (exec_all ext cs init))) = "" /\
  Interface (nilReflectField (snd (exec_all ext cs init))) = VNil /\
  (forall (k1 k2 : string) (g : Globals),
     let r1 := nilField k1 g in
     let r2 := nilField k2 (snd r1) in
     fst r1 = set_Key (nilReflectField g) k1 /\
     fst r2 = set_Key (nilReflectField g) k2 /\
     Key (fst r1) = k1 /\ Key (fst r2) = k2 /\
     nilReflectField (snd r2) = nilReflectField g).
Proof.
  split; [ apply exec_all_unchanged | ].
  rewrite (exec_all_unchanged ext cs init).
  repeat split.
Qed.

(** *** The order of the cases of [Any] *)

(** C1, as the code has it. The object-marshaler case comes first and
    the array-marshaler case second, before every concrete-type case:
    a value that implements the first yields what [Object] returns, and
    one that implements only the second what [Array] returns. The
    stringer case comes after the concrete-type cases and after the
    error case. For a value that is neither an object nor an array
    marshaler and whose type no concrete-type case names: an error
    yields what [NamedError] returns, whether or not it is a stringer,
    and a stringer that is not an error yields what [Stringer] returns.
    The stringers whose type a concrete-type case names are the
    durations, the times and the pointers to them: they yield what
    [Duration], [Durationp], [Time] and [Timep] return. *)
Theorem Any_capability_order (ext : Externals) (key : string) (value : Value) :
  (implements iface.ObjectMarshaler value = true ->
   Any ext key value = Object key value) /\
  (implements iface.ObjectMarshaler value = false ->
   implements iface.ArrayMarshaler value = true ->
   Any ext key value = ret (Array ext key value)) /\
  (implements iface.ObjectMarshaler value = false ->
   implements iface.ArrayMarshaler value = false ->
   concrete_case value = false ->
   implements iface.error value = true ->
   Any ext key value = ret (NamedError ext key value)) /\
  (implements iface.ObjectMarshaler value = false ->
   implements iface.ArrayMarshaler value = false ->
   concrete_case value = false ->
   implements iface.error value = false ->
   implements iface.Stringer value = true ->
   Any ext key value = ret (Stringer key value)) /\
  (concrete_case value = true ->
   implements iface.Stringer value = true ->
   (exists d : time.Duration, value = VDuration d) \/
   (exists d : option time.Duration, value = VDurationp d) \/
   (exists t : time.Time, value = VTime t) \/
   (exists t : option time.Time, value = VTimep t)) /\
  (forall d : time.Duration,
     implements iface.Stringer (VDuration d) = true /\
     Any ext key (VDuration d) = ret (Duration key d)) /\
  (forall d : option time.Duration,
     implements iface.Stringer (VDurationp d) = true /\
     Any ext key (VDurationp d) = Durationp key d) /\
  (forall t : time.Time,
     implements iface.Stringer (VTime t) = true /\
     Any ext key (VTime t) = Time key t) /\
  (forall t : option time.Time,
     implements iface.Stringer (VTimep t) = true /\
     Any ext key (VTimep t) = Timep key t).
Proof.
  split; [ | split; [ | split; [ | split; [ | split; [ | repeat split ] ] ] ] ].
  - intros Ho. unfold Any. rewrite Ho. reflexivity.
  - intros Ho Ha. unfold Any. rewrite Ho, Ha. reflexivity.
  - intros Ho Ha Hc He. unfold Any. rewrite Ho, Ha.
    destruct value; try discriminate Hc; rewrite ?He; try reflexivity;
      cbn in He; discriminate He.
  - intros Ho Ha Hc He Hs. unfold Any. rewrite Ho, Ha.
    destruct value; try discriminate Hc; rewrite ?He, ?Hs; try reflexivity;
      cbn in Hs; discriminate Hs.
  - intros Hc Hs. destruct value; try discriminate Hc; try discriminate Hs;
      eauto 6.
Qed.

(** C1 fails as stated: a duration implements the stringer capability,
    and [Any] returns the duration field for it, not the stringer field. *)
Lemma Any_duration_is_not_Stringer :
  implements iface.Stringer (VDuration 1500) = true /\
  Any sample_externals "elapsed" (VDuration 1500) init
  = (Duration "elapsed" 1500, init) /\
  Any sample_externals "elapsed" (VDuration 1500) init
  <> (Stringer "elapsed" (VDuration 1500), init).
Proof.
  split; [ reflexivity | split; [ reflexivity | ] ].
  cbn. discriminate.
Qed.

(** C2, as the code has it. For every primitive constructor that has a
    type of its own among the cases of [Any], in its plain, pointer or
    slice form, and every value of the constructor's parameter type,
    [Any] returns the field the constructor returns, under the same key:
    no capability case comes in between. A byte slice, the slice form of
    [uint8], always goes to [Binary]: for a constructor [T] on byte
    slices, [Any] returns what [T] returns exactly when [T] returns what
    [Binary] does, which [ByteString] never does. *)
Theorem Any_agrees_with_constructor (ext : Externals) (key : string) :
  (forall (value : Value) (c : Pkg Field),
     direct_constructor ext key value = Some c ->
     Any ext key value = c) /\
  (forall v : list byte, Any ext key (VBytes v) = ret (Binary key v)) /\
  (forall (T : string -> list byte -> Field) (v : list byte) (g : Globals),
     Any ext key (VBytes v) g = (T key v, g) <-> T key v = Binary key v) /\
  (forall (v : list byte) (g : Globals),
     Type_ (fst (Any ext key (VBytes v) g)) = BinaryType /\
     Type_ (ByteString key v) = ByteStringType /\
     Any ext key (VBytes v) g <> (ByteString key v, g)).
Proof.
  split; [ | split; [ | split ] ].
  - intros value c H. destruct value; cbn in H; try discriminate H;
      injection H as <-; reflexivity.
  - intros v. reflexivity.
  - intros T v g. change (Any ext key (VBytes v) g) with (Binary key v, g).
    split; intros E; [ injection E as E | ]; congruence.
  - intros v g. split; [ reflexivity | split; [ reflexivity | ] ].
    change (Any ext key (VBytes v) g) with (Binary key v, g).
    unfold Binary, ByteString. intros E. discriminate E.
Qed.

Lemma Any_agrees_with_constructor_witness :
  Any sample_externals "n" (VInt32 (-7)) = pure Int32 "n" (-7) /\
  Any sample_externals "p" (VBoolp None) = Boolp "p" None /\
  Any sample_externals "d" (VDuration 1500) = pure Duration "d" 1500.
Proof.
  split; [ | split ].
  - apply (proj1 (Any_agrees_with_constructor sample_externals "n") (VInt32 (-7))).
    reflexivity.
  - apply (proj1 (Any_agrees_with_constructor sample_externals "p") (VBoolp None)).
    reflexivity.
  - apply (proj1 (Any_agrees_with_constructor sample_externals "d") (VDuration 1500)).
    reflexivity.
Defined.

(** C2 fails as stated: [ByteString] takes a byte slice, and [Any] on a
    byte slice returns the field of [Binary], of another variant. *)
Lemma Any_bytes_is_not_ByteString :
  Any sample_externals "raw" (VBytes [x68; x69]) init
  = (Binary "raw" [x68; x69], init) /\
  Type_ (fst (Any sample_externals "raw" (VBytes [x68; x69]) init)) = BinaryType /\
  Type_ (ByteString "raw" [x68; x69]) = ByteStringType /\
  Any sample_externals "raw" (VBytes [x68; x69]) init
  <> (ByteString "raw" [x68; x69], init).
Proof.
  split; [ reflexivity | split; [ reflexivity | split; [ reflexivity | ] ] ].
  cbn. discriminate.
Qed.

End zap_proofs.

(** * Properties of the buffer *)

Module buffer_proofs.

Import slices buffer_spec.
Local Open Scope nat_scope.
Local Open Scope list_scope.

Lemma length_bytes_of (s : string) : List.length (bytes_of s) = String.length s.
Proof.
  unfold bytes_of, list_byte_of_string. rewrite length_map.
  induction s as [ | c s IH ]; cbn; congruence.
Qed.

Lemma set_bs_same (b : Buffer) : set_bs b (bs b) = b.
Proof. destruct b; reflexivity. Qed.

(** *** What [copy] and [append] do *)

Lemma copy_at_middle (a : nat) (pre old post sp v : list byte) (st : State) :
  List.length old = List.length v ->
  copy_at (mkSlice a (pre ++ old ++ post) sp) (List.length pre) v st
  = Some (mkSlice a (pre ++ v ++ post) sp, st).
Proof.
  intros E. unfold copy_at, len. cbn [elems arr spare].
  rewrite !length_app.
  destruct (Nat.ltb_spec (List.length pre + (List.length old + List.length post))
              (List.length pre)) as [ L | _ ]; [ lia | ].
  unfold ret. do 2 f_equal.
  replace (Nat.min _ (List.length v)) with (List.length v) by lia.
  rewrite firstn_app, firstn_all, Nat.sub_diag, firstn_0, app_nil_r.
  rewrite firstn_all. do 2 f_equal.
  rewrite skipn_app, skipn_all2 by lia. cbn [app].
  replace (List.length pre + List.length v - List.length pre) with (List.length old) by lia.
  rewrite skipn_app, skipn_all, Nat.sub_diag. reflexivity.
Qed.

Section WithRuntime.

Variable growslice : nat -> nat -> nat.

Lemma append_in_place (s : slice) (v : list byte) (st : State) :
  List.length v <= List.length (spare s) ->
  append growslice s v st
  = Some (mkSlice (arr s) (elems s ++ v) (skipn (List.length v) (spare s)), st).
Proof.
  intros L. unfold append. cbv zeta.
  destruct (Nat.leb_spec (len s + List.length v) (cap s)) as [ _ | G ];
    [ reflexivity | unfold cap, len in G; lia ].
Qed.

Lemma append_grows (s : slice) (v : list byte) (st : State) :
  List.length (spare s) < List.length v ->
  append growslice s v st
  = Some (mkSlice (next_array st) (elems s ++ v)
            (repeat x00 (Nat.max (len s + List.length v)
                           (growslice (cap s) (len s + List.length v))
                         - (len s + List.length v))),
          mkState (S (next_array st)) (pooled st)).
Proof.
  intros L. unfold append. cbv zeta.
  destruct (Nat.leb_spec (len s + List.length v) (cap s)) as [ G | _ ];
    [ unfold cap, len in G; lia | reflexivity ].
Qed.

(** [append] never panics, and the slice it returns holds the old
    elements followed by the new ones. *)
Lemma append_elems (s : slice) (v : list byte) (st : State) :
  exists s' st', append growslice s v st = Some (s', st') /\ elems s' = elems s ++ v.
Proof.
  destruct (Nat.le_gt_cases (List.length v) (List.length (spare s))) as [ L | L ].
  - rewrite (append_in_place s v st L). eauto.
  - rewrite (append_grows s v st L). eauto.
Qed.

End WithRuntime.

(** *** The optimized [AppendString] *)

Lemma AppendString_in_place (s : string) (b : Buffer) (st : State) :
  String.length s <> 0 ->
  String.length s <= List.length (spare (bs b)) ->
  part_000.AppendString s b st
  = Some (set_bs b (mkSlice (arr (bs b)) (elems (bs b) ++ bytes_of s)
                      (skipn (String.length s) (spare (bs b)))), st).
Proof.
  intros N L. unfold part_000.AppendString.
  destruct (Nat.eqb_spec (String.length s) 0) as [ E | _ ]; [ contradiction | ].
  unfold cap, len.
  destruct (Nat.leb_spec (String.length s)
              (List.length (elems (bs b)) + List.length (spare (bs b))
               - List.length (elems (bs b)))) as [ _ | G ]; [ | lia ].
  unfold bind at 1. unfold reslice_to, cap.
  destruct (Nat.ltb_spec (List.length (elems (bs b)) + List.length (spare (bs b)))
              (List.length (elems (bs b)) + String.length s)) as [ G | _ ]; [ lia | ].
  unfold ret at 1. unfold bind.
  rewrite firstn_app_2, skipn_app, skipn_all2 by lia. cbn [app].
  replace (List.length (elems (bs b)) + String.length s - List.length (elems (bs b)))
    with (String.length s) by lia.
  rewrite <- (app_nil_r (firstn (String.length s) (spare (bs b)))).
  rewrite copy_at_middle.
  - rewrite app_nil_r. reflexivity.
  - rewrite length_firstn, length_bytes_of. lia.
Qed.

Lemma AppendString_grows (s : string) (b : Buffer) (st : State) :
  List.length (spare (bs b)) < String.length s ->
  let l := len (bs b) in
  let needed := String.length s in
  let newCap := Nat.max (cap (bs b) * 2) (Nat.max (l + needed) part_000._size) in
  part_000.AppendString s b st
  = Some (set_bs b (mkSlice (next_array st) (elems (bs b) ++ bytes_of s)
                      (repeat x00 (newCap - (l + needed)))),
          mkState (S (next_array st)) (pooled st)).
Proof.
  intros G l needed newCap. unfold part_000.AppendString.
  destruct (Nat.eqb_spec (String.length s) 0) as [ E | _ ]; [ lia | ].
  fold l. fold needed.
  destruct (Nat.leb_spec needed (cap (bs b) - l)) as [ L | _ ];
    [ unfold cap, l, len in L; lia | ].
  assert (C : (if (if cap (bs b) * 2 <? l + needed then l + needed else cap (bs b) * 2)
                    <? part_000._size
               then part_000._size
               else if cap (bs b) * 2 <? l + needed then l + needed else cap (bs b) * 2)
              = newCap).
  { unfold newCap.
    destruct (Nat.ltb_spec (cap (bs b) * 2) (l + needed));
      match goal with |- context [Nat.ltb ?x ?y] => destruct (Nat.ltb_spec x y) end; lia. }
  rewrite C. clear C.
  unfold bind at 1. unfold make.
  destruct (Nat.ltb_spec newCap (l + needed)) as [ L | _ ]; [ unfold newCap in L; lia | ].
  unfold bind at 1. unfold alloc, ret at 1. unfold bind at 1.
  rewrite repeat_app.
  rewrite (copy_at_middle _ [] (repeat x00 l) (repeat x00 needed))
    by (rewrite repeat_length; reflexivity).
  cbn [app]. unfold bind.
  rewrite <- (app_nil_r (repeat x00 needed)).
  rewrite copy_at_middle by (rewrite repeat_length, length_bytes_of; reflexivity).
  rewrite app_nil_r. reflexivity.
Qed.

Lemma bytes_of_empty (s : string) : String.length s = 0 -> bytes_of s = [].
Proof. destruct s; [ reflexivity | discriminate ]. Qed.

Lemma AppendString_empty (s : string) (b : Buffer) (st : State) :
  String.length s = 0 -> part_000.AppendString s b st = Some (b, st).
Proof. intros E. unfold part_000.AppendString. rewrite E. reflexivity. Qed.

(** The optimized [AppendString] never panics, and leaves the old
    content followed by the bytes of the string. *)
Lemma AppendString_elems (s : string) (b : Buffer) (st : State) :
  exists (b' : Buffer) (st' : State),
    part_000.AppendString s b st = Some (b', st') /\
    elems (bs b') = elems (bs b) ++ bytes_of s.
Proof.
  destruct (Nat.eq_dec (String.length s) 0) as [ E | N ].
  - rewrite (AppendString_empty s b st E), (bytes_of_empty s E), app_nil_r. eauto.
  - destruct (Nat.le_gt_cases (String.length s) (List.length (spare (bs b)))) as [ L | G ].
    + rewrite (AppendString_in_place s b st N L). eauto.
    + rewrite (AppendString_grows s b st G). eauto.
Qed.

(** C4. On every buffer and every string, the optimized [AppendString]
    and the one that calls [append] both return, and leave the same
    content and the same length: the old content followed by the bytes
    of the string. When the string fits the remaining capacity, the
    optimized one keeps the backing array and the capacity and allocates
    nothing; when it does not, the buffer gets a new array whose capacity
    is at least twice the old capacity, at least the old length plus the
    length of the string, and at least 1024. *)
Theorem AppendString_refines_append
    (growslice : nat -> nat -> nat) (s : string) (b : Buffer) (st : State) :
  exists (b1 : Buffer) (st1 : State) (b2 : Buffer) (st2 : State),
    part_000.AppendString s b st = Some (b1, st1) /\
    buffer.AppendString growslice s b st = Some (b2, st2) /\
    part_000.Bytes b1 = buffer.Bytes b2 /\
    part_000.Len b1 = buffer.Len b2 /\
    part_000.Bytes b1 = part_000.Bytes b ++ bytes_of s /\
    (if String.length s <=? part_000.Cap b - part_000.Len b
     then arr (bs b1) = arr (bs b) /\ part_000.Cap b1 = part_000.Cap b /\ st1 = st
     else arr (bs b1) = next_array st /\
          next_array st1 = S (next_array st) /\
          Nat.max (2 * part_000.Cap b)
            (Nat.max (part_000.Len b + String.length s) 1024)
          <= part_000.Cap b1).
Proof.
  unfold part_000.Bytes, buffer.Bytes, part_000.Len, buffer.Len, part_000.Cap.
  destruct (Nat.eq_dec (String.length s) 0) as [ E | N ].
  - exists b, st, b, st. rewrite (AppendString_empty s b st E).
    unfold buffer.AppendString. rewrite E, (bytes_of_empty s E), app_nil_r.
    cbn. repeat split.
  - unfold buffer.AppendString.
    destruct (Nat.eqb_spec (String.length s) 0) as [ E | _ ]; [ contradiction | ].
    unfold bind.
    destruct (Nat.le_gt_cases (String.length s) (List.length (spare (bs b)))) as [ L | G ].
    + rewrite (AppendString_in_place s b st N L).
      rewrite append_in_place by (rewrite length_bytes_of; exact L).
      rewrite length_bytes_of. unfold ret.
      do 4 eexists. split; [ reflexivity | split; [ reflexivity | ] ].
      destruct (Nat.leb_spec (String.length s) (cap (bs b) - len (bs b))) as [ _ | G ];
        [ | unfold cap, len in G; lia ].
      cbn. repeat split. unfold cap. cbn.
      rewrite length_app, length_skipn, length_bytes_of. lia.
    + rewrite (AppendString_grows s b st G).
      rewrite append_grows by (rewrite length_bytes_of; exact G).
      unfold ret.
      do 4 eexists. split; [ reflexivity | split; [ reflexivity | ] ].
      destruct (Nat.leb_spec (String.length s) (cap (bs b) - len (bs b))) as [ L | _ ];
        [ unfold cap, len in L; lia | ].
      cbn. repeat split. unfold cap, len, part_000._size. cbn.
      rewrite length_app, repeat_length, length_bytes_of. lia.
Qed.

(** *** Sequences of appends *)

Section Appending.

Variable growslice : nat -> nat -> nat.

Lemma via_append (v : list byte) (b : Buffer) (st : State) :
  exists (b' : Buffer) (st' : State),
    (s <- append growslice (bs b) v ;; ret (set_bs b s)) st = Some (b', st') /\
    elems (bs b') = elems (bs b) ++ v.
Proof.
  destruct (append_elems growslice (bs b) v st) as (s' & st' & E & C).
  exists (set_bs b s'), st'. unfold bind. rewrite E. split; [ reflexivity | exact C ].
Qed.

Lemma buffer_go_appends : appends_payload (buffer_go growslice).
Proof.
  intros [ v | v | s ] b st; cbn [call buffer_go AppendByte AppendBytes AppendString payload].
  - apply via_append.
  - unfold buffer.AppendBytes. destruct v as [ | x v ].
    + exists b, st. rewrite app_nil_r. split; reflexivity.
    + apply via_append.
  - unfold buffer.AppendString.
    destruct (Nat.eqb_spec (String.length s) 0) as [ E | _ ].
    + exists b, st. rewrite (bytes_of_empty s E), app_nil_r. split; reflexivity.
    + apply via_append.
Qed.

Lemma part_000_go_appends : appends_payload (part_000_go growslice).
Proof.
  intros [ v | v | s ] b st; cbn [call part_000_go AppendByte AppendBytes AppendString payload].
  - apply via_append.
  - apply via_append.
  - apply AppendString_elems.
Qed.

Lemma call_all_appends (A : Appends) :
  appends_payload A ->
  forall (ops : list Op) (b : Buffer) (st : State),
    exists (b' : Buffer) (st' : State),
      call_all A ops b st = Some (b', st') /\
      elems (bs b') = elems (bs b) ++ appended ops.
Proof.
  intros HA ops. induction ops as [ | o ops IH ]; intros b st.
  - exists b, st. cbn. rewrite app_nil_r. split; reflexivity.
  - destruct (HA o b st) as (b1 & st1 & E1 & C1).
    destruct (IH b1 st1) as (b2 & st2 & E2 & C2).
    exists b2, st2. cbn [call_all]. unfold bind. rewrite E1. split; [ exact E2 | ].
    rewrite C2, C1. unfold appended. cbn [flat_map]. rewrite app_assoc. reflexivity.
Qed.

End Appending.

(** C5. After any sequence of [AppendByte], [AppendBytes] and
    [AppendString] calls on an empty buffer, with the methods of either
    buffer file, every call has returned, [Bytes] is the concatenation
    of the appended bytes in order and [Len] is their number; appending
    the empty byte slice or the empty string leaves the buffer, and the
    allocator, as they were. *)
Theorem appends_concatenate
    (growslice : nat -> nat -> nat) (ops : list Op) (b : Buffer) (st : State) :
  buffer.Len b = 0 ->
  (exists (b' : Buffer) (st' : State),
     call_all (buffer_go growslice) ops b st = Some (b', st') /\
     buffer.Bytes b' = appended ops /\
     buffer.Len b' = List.length (appended ops)) /\
  (exists (b' : Buffer) (st' : State),
     call_all (part_000_go growslice) ops b st = Some (b', st') /\
     part_000.Bytes b' = appended ops /\
     part_000.Len b' = List.length (appended ops)) /\
  (forall (b0 : Buffer) (st0 : State),
     buffer.AppendBytes growslice [] b0 st0 = Some (b0, st0) /\
     buffer.AppendString growslice "" b0 st0 = Some (b0, st0) /\
     part_000.AppendBytes growslice [] b0 st0 = Some (b0, st0) /\
     part_000.AppendString "" b0 st0 = Some (b0, st0)).
Proof.
  intros Z. unfold buffer.Len, len in Z. apply length_zero_iff_nil in Z.
  unfold buffer.Bytes, part_000.Bytes, buffer.Len, part_000.Len, len.
  split; [ | split ].
  - destruct (call_all_appends (buffer_go growslice) (buffer_go_appends growslice) ops b st)
      as (b' & st' & E & C).
    exists b', st'. rewrite C, Z. cbn [app]. repeat split. exact E.
  - destruct (call_all_appends (part_000_go growslice) (part_000_go_appends growslice) ops b st)
      as (b' & st' & E & C).
    exists b', st'. rewrite C, Z. cbn [app]. repeat split. exact E.
  - intros b0 st0. split; [ reflexivity | split; [ reflexivity | split; [ | reflexivity ] ] ].
    unfold part_000.AppendBytes, bind.
    rewrite append_in_place by (cbn; lia).
    rewrite app_nil_r. cbn [List.length skipn]. unfold ret.
    destruct b0 as [ [ a e sp ] p ]. reflexivity.
Qed.

Lemma appends_concatenate_witness :
  (exists (b' : Buffer) (st' : State),
     call_all (buffer_go doubling)
       [op_AppendString "abc"; op_AppendString ""; op_AppendString "de"]
       fresh_buffer fresh_state = Some (b', st') /\
     buffer.Bytes b' = bytes_of "abcde" /\
     buffer.Len b' = 5) /\
  (exists (b' : Buffer) (st' : State),
     call_all (part_000_go doubling)
       [op_AppendString "abc"; op_AppendString ""; op_AppendString "de"]
       fresh_buffer fresh_state = Some (b', st') /\
     part_000.Bytes b' = bytes_of "abcde" /\
     part_000.Len b' = 5).
Proof.
  destruct (appends_concatenate doubling
              [op_AppendString "abc"; op_AppendString ""; op_AppendString "de"]
              fresh_buffer fresh_state eq_refl) as [ H1 [ H2 _ ] ].
  split; [ exact H1 | exact H2 ].
Defined.

(** *** Examples on concrete buffers *)

(** A string that does not fit an empty array of 8 bytes: the new
    capacity is the default size. *)
Example AppendString_small_buffer_grows_to_default :
  exists (b' : Buffer) (st' : State),
    part_000.AppendString "hello, world" (mkBuffer (mkSlice 0 [] (repeat x00 8)) 0)
      fresh_state = Some (b', st') /\
    part_000.Bytes b' = bytes_of "hello, world" /\
    part_000.Cap b' = 1024 /\
    arr (bs b') = 1.
Proof. do 2 eexists. split; [ vm_compute; reflexivity | ]. repeat split. Qed.

(** [Free] of [buffer/buffer.go] on a buffer of capacity 5000: the
    buffer goes back to its pool empty, on a new array of 1024 bytes. *)
Example Free_trims_grown_buffer :
  buffer.Free grown_buffer fresh_state
  = Some (mkBuffer (mkSlice 1 [] (repeat x00 1024)) 0,
          mkState 2 [(0, mkBuffer (mkSlice 1 [] (repeat x00 1024)) 0)]).
Proof. reflexivity. Qed.

(** *** Release *)

(** C3, as the code has it. [Free] of [buffer/buffer.go] returns with
    the buffer's length at 0 and the buffer handed to its pool; when the
    capacity exceeded 4096 the buffer has a newly allocated array of
    capacity 1024, and otherwise it keeps its array and its capacity.
    [Free] of the second buffer file hands the buffer to its pool as it
    is. *)
Theorem Free_of_each_file (b : Buffer) (st : State) :
  (exists (b' : Buffer) (st' : State),
     buffer.Free b st = Some (b', st') /\
     buffer.Len b' = 0 /\
     pool b' = pool b /\
     pooled st' = (pool b, b') :: pooled st /\
     (if 4096 <? buffer.Cap b
      then buffer.Cap b' = 1024 /\
           arr (bs b') = next_array st /\ next_array st' = S (next_array st)
      else buffer.Cap b' = buffer.Cap b /\
           arr (bs b') = arr (bs b) /\ next_array st' = next_array st)) /\
  part_000.Free b st = Some (b, mkState (next_array st) ((pool b, b) :: pooled st)).
Proof.
  split; [ | reflexivity ].
  unfold buffer.Free, buffer.Len, buffer.Cap.
  change (buffer._size * buffer._maxExcessCap) with 4096.
  destruct (Nat.ltb_spec 4096 (cap (bs b))) as [ G | L ].
  - do 2 eexists. split; [ reflexivity | ]. cbn. repeat split.
  - destruct (Nat.ltb_spec 0 (len (bs b))) as [ P | E ].
    + do 2 eexists. split; [ reflexivity | ]. cbn. repeat split.
      unfold cap. cbn. rewrite length_app. reflexivity.
    + do 2 eexists. split; [ reflexivity | ]. cbn. repeat split. lia.
Qed.

(** C3 fails as stated on the second buffer file: its [Free] leaves a
    buffer of length 1 and capacity 5000 with that length and capacity. *)
Lemma part_000_Free_keeps_length :
  part_000.Free grown_buffer fresh_state
  = Some (grown_buffer, mkState 1 [(0, grown_buffer)]) /\
  part_000.Len grown_buffer = 1 /\
  part_000.Cap grown_buffer = 5000.
Proof. repeat split. Qed.

End buffer_proofs.

(** * Further properties of [field.go] *)

Module zap_more.

Import zapcore zap zap_spec zap_proofs.
Local Open Scope list_scope.

(** *** Payloads are lossless *)

(** X1. A signed value that fits 64 bits is stored unchanged in the
    integer payload by [Int], [Int64], [Int32], [Int16], [Int8] and
    [Duration] and by their pointer forms: the conversion to [int64]
    loses nothing. *)
Theorem signed_payload_exact (key : string) (v : Z) :
  goint.MinInt64 <= v <= goint.MaxInt64 ->
  (Integer (Int key v) = v /\
   Integer (Int64 key v) = v /\
   Integer (Int32 key v) = v /\
   Integer (Int16 key v) = v /\
   Integer (Int8 key v) = v /\
   Integer (Duration key v) = v) /\
  (forall g : Globals,
     Integer (fst (Intp key (Some v) g)) = v /\
     Integer (fst (Int64p key (Some v) g)) = v /\
     Integer (fst (Int32p key (Some v) g)) = v /\
     Integer (fst (Int16p key (Some v) g)) = v /\
     Integer (fst (Int8p key (Some v) g)) = v /\
     Integer (fst (Durationp key (Some v) g)) = v).
Proof.
  intros H. pose proof (int64_small v H) as E.
  repeat split; cbn; rewrite ?E; reflexivity.
Qed.

Lemma signed_payload_exact_witness :
  Integer (Int8 "n" (-128)) = -128 /\
  Integer (Int64 "n" (-9223372036854775808)) = -9223372036854775808 /\
  Integer (Duration "d" 9223372036854775807) = 9223372036854775807.
Proof.
  assert (R1 : goint.MinInt64 <= -128 <= goint.MaxInt64) by (cbv; split; discriminate).
  assert (R2 : goint.MinInt64 <= -9223372036854775808 <= goint.MaxInt64)
    by (cbv; split; discriminate).
  assert (R3 : goint.MinInt64 <= 9223372036854775807 <= goint.MaxInt64)
    by (cbv; split; discriminate).
  split; [ | split ].
  - exact (proj1 (proj2 (proj2 (proj2 (proj2 (proj1 (signed_payload_exact "n" _ R1))))))).
  - exact (proj1 (proj2 (proj1 (signed_payload_exact "n" _ R2)))).
  - exact (proj2 (proj2 (proj2 (proj2 (proj2 (proj1 (signed_payload_exact "d" _ R3))))))).
Defined.

(** X2. The bit pattern of a float is recovered from the integer
    payload: reading the payload of [Float64] (or [Float64p]) as a
    [uint64] gives the 64 bits back, and the payload of [Float32] (or
    [Float32p]) is the 32 bits themselves, never negative. A boolean is
    stored as 1 or 0 by [Bool] and [Boolp] alike, so that comparing the
    payload with 1 gives it back. *)
Theorem float_and_bool_payload_round_trip
    (key : string) (d : math.float64) (s : math.float32) (b : bool) :
  0 <= math.Float64bits d < 2 ^ 64 ->
  0 <= math.Float32bits s < 2 ^ 32 ->
  goint.uint64 (Integer (Float64 key d)) = math.Float64bits d /\
  Integer (Float32 key s) = math.Float32bits s /\
  (Integer (Bool key b) =? 1) = b /\
  (forall g : Globals,
     fst (Float64p key (Some d) g) = Float64 key d /\
     fst (Float32p key (Some s) g) = Float32 key s /\
     fst (Boolp key (Some b) g) = Bool key b).
Proof.
  intros Hd Hs. split; [ | split; [ | split ] ].
  - cbn. rewrite (int64_as_signed64 _ Hd). apply uint64_as_signed64. exact Hd.
  - cbn. apply int64_small. unfold goint.MinInt64, goint.MaxInt64. lia.
  - destruct b; reflexivity.
  - intros g. repeat split.
Qed.

Lemma float_and_bool_payload_round_trip_witness :
  goint.uint64 (Integer (Float64 "x" {| math.Float64bits := 13830554455654793216 |}))
  = 13830554455654793216 /\
  Integer (Float32 "y" {| math.Float32bits := 3212836864 |}) = 3212836864 /\
  (Integer (Bool "z" true) =? 1) = true.
Proof.
  assert (Hd : 0 <= math.Float64bits {| math.Float64bits := 13830554455654793216 |} < 2 ^ 64)
    by (cbv; split; [ discriminate | reflexivity ]).
  assert (Hs : 0 <= math.Float32bits {| math.Float32bits := 3212836864 |} < 2 ^ 32)
    by (cbv; split; [ discriminate | reflexivity ]).
  destruct (float_and_bool_payload_round_trip "x" _ {| math.Float32bits := 3212836864 |}
              true Hd Hs) as [ A _ ].
  destruct (float_and_bool_payload_round_trip "y"
              {| math.Float64bits := 13830554455654793216 |} _ true Hd Hs)
    as [ _ [ B _ ] ].
  destruct (float_and_bool_payload_round_trip "z"
              {| math.Float64bits := 13830554455654793216 |}
              {| math.Float32bits := 3212836864 |} true Hd Hs)
    as [ _ [ _ [ C _ ] ] ].
  split; [ exact A | split; [ exact B | exact C ] ].
Defined.

(** *** The compact time encoding is lossless *)

Lemma Unix_of_nanoseconds (sec ns : Z) :
  0 <= ns < 1000000000 ->
  time.Unix 0 (sec * 1000000000 + ns)
  = {| time.unixSec := sec; time.nsec := ns; time.loc := Some time.Local |}.
Proof.
  intros H. unfold time.Unix.
  set (T := sec * 1000000000 + ns).
  assert (I : forall x, 0 <= x < 1000000000 -> goint.int32 x = x).
  { intros x Hx. unfold goint.int32. rewrite Z.mod_small by lia. lia. }
  destruct (Z.ltb_spec T 0) as [ Neg | Pos ]; cbn [orb].
  - pose proof (Z.quot_rem' T 1000000000) as QR.
    pose proof (Z.rem_bound_pos_neg T 1000000000 ltac:(lia) ltac:(lia)) as RB.
    set (q := Z.quot T 1000000000) in *. set (r := Z.rem T 1000000000) in *.
    replace (T - q * 1000000000) with r by lia. replace (0 + q) with q by lia.
    destruct (Z.ltb_spec r 0) as [ Rn | Rz ].
    + rewrite I by lia. f_equal; unfold T in QR; lia.
    + rewrite I by lia. f_equal; unfold T in QR; lia.
  - destruct (Z.geb_spec T 1000000000) as [ Big | Small ].
    + pose proof (Z.quot_rem' T 1000000000) as QR.
      pose proof (Z.rem_bound_pos T 1000000000 ltac:(lia) ltac:(lia)) as RB.
      set (q := Z.quot T 1000000000) in *. set (r := Z.rem T 1000000000) in *.
      replace (T - q * 1000000000) with r by lia. replace (0 + q) with q by lia.
      destruct (Z.ltb_spec r 0) as [ Rn | Rz ]; [ lia | ].
      rewrite I by lia. f_equal; unfold T in QR; lia.
    + rewrite I by lia. f_equal; unfold T in *; lia.
Qed.

(** X3. Whenever [Time] picks the compact encoding, the time can be
    rebuilt from the field: [time.Unix(0, f.Integer)] has the seconds and
    the nanoseconds of the time given, and the reference slot holds its
    location. *)
Theorem Time_compact_round_trip (key : string) (t : time.Time) :
  0 <= time.nsec t < 1000000000 ->
  in_int64_nanoseconds t = true ->
  Type_ (fst (Time key t init)) = TimeType /\
  time.unixSec (time.Unix 0 (Integer (fst (Time key t init)))) = time.unixSec t /\
  time.nsec (time.Unix 0 (Integer (fst (Time key t init)))) = time.nsec t /\
  Interface (fst (Time key t init)) = VLocation (time.Location_of t).
Proof.
  intros H R.
  assert (E : Time key t init
              = (mkField key TimeType (unix_nanoseconds t) ""
                   (VLocation (time.Location_of t)), init)).
  { unfold Time, bind, load. rewrite (out_of_range_test t H), R. cbn [negb].
    unfold ret. rewrite (UnixNano_exact t H R). reflexivity. }
  rewrite E. cbn [fst Type_ Integer Interface]. unfold unix_nanoseconds.
  rewrite (Unix_of_nanoseconds _ _ H). repeat split.
Qed.

Lemma Time_compact_round_trip_witness :
  time.unixSec
    (time.Unix 0
       (Integer (fst (Time "at"
          {| time.unixSec := -3; time.nsec := 999999999; time.loc := None |} init))))
  = -3 /\
  time.nsec
    (time.Unix 0
       (Integer (fst (Time "at"
          {| time.unixSec := -3; time.nsec := 999999999; time.loc := None |} init))))
  = 999999999.
Proof.
  assert (H : 0 <= time.nsec
                {| time.unixSec := -3; time.nsec := 999999999; time.loc := None |}
              < 1000000000) by (cbv; split; [ discriminate | reflexivity ]).
  destruct (Time_compact_round_trip "at" _ H eq_refl) as [ _ [ A [ B _ ] ] ].
  split; [ exact A | exact B ].
Defined.

(** *** More on the dispatch of [Any] *)

(** X4. [Any] on a nil pointer of any of the nineteen pointer types of
    the switch returns the nil representation under the given key; this
    holds for the nil pointers to a time and to a duration too, although
    their types have a [String] method. *)
Theorem Any_nil_pointers (ext : Externals) (key : string) :
  Any ext key (VBoolp None) init = (nil_representation key, init) /\
  Any ext key (VComplex128p None) init = (nil_representation key, init) /\
  Any ext key (VComplex64p None) init = (nil_representation key, init) /\
  Any ext key (VFloat64p None) init = (nil_representation key, init) /\
  Any ext key (VFloat32p None) init = (nil_representation key, init) /\
  Any ext key (VIntp None) init = (nil_representation key, init) /\
  Any ext key (VInt64p None) init = (nil_representation key, init) /\
  Any ext key (VInt32p None) init = (nil_representation key, init) /\
  Any ext key (VInt16p None) init = (nil_representation key, init) /\
  Any ext key (VInt8p None) init = (nil_representation key, init) /\
  Any ext key (VStringp None) init = (nil_representation key, init) /\
  Any ext key (VUintp None) init = (nil_representation key, init) /\
  Any ext key (VUint64p None) init = (nil_representation key, init) /\
  Any ext key (VUint32p None) init = (nil_representation key, init) /\
  Any ext key (VUint16p None) init = (nil_representation key, init) /\
  Any ext key (VUint8p None) init = (nil_representation key, init) /\
  Any ext key (VUintptrp None) init = (nil_representation key, init) /\
  Any ext key (VTimep None) init = (nil_representation key, init) /\
  Any ext key (VDurationp None) init = (nil_representation key, init).
Proof. repeat split. Qed.

(** X5. The nil test of [Object] never fires under [Any]: a value that
    implements the object-marshaler interface always yields a field of
    the object-marshaler variant that holds the value itself. The same
    goes for the values [Any] wraps before it calls [Object]: a slice of
    fields (also through [Dict], and also when empty) and the two kinds
    of map yield an object-marshaler field that holds the wrapped
    value. *)
Theorem Any_object_never_nil (ext : Externals) (key : string) :
  (forall value : Value,
     implements iface.ObjectMarshaler value = true ->
     Any ext key value = ret (mkField key ObjectMarshalerType 0 "" value)) /\
  (forall l : list Field,
     Any ext key (VFields l) = ret (mkField key ObjectMarshalerType 0 "" (VDictObject l)) /\
     Dict key l = ret (mkField key ObjectMarshalerType 0 "" (DictObject l))) /\
  (forall m : list (string * string),
     Any ext key (VMapStringString m)
     = ret (mkField key ObjectMarshalerType 0 "" (VMapStringStringObject m))) /\
  (forall m : list (string * Value),
     Any ext key (VMapStringInterface m)
     = ret (mkField key ObjectMarshalerType 0 "" (VMapStringInterfaceObject m))).
Proof.
  split; [ | repeat split ].
  intros value H. unfold Any. rewrite H.
  destruct value; cbn in H; try discriminate H; reflexivity.
Qed.

(** *** Keys *)

Lemma nilField_key (key : string) (g : Globals) : Key (fst (nilField key g)) = key.
Proof. reflexivity. Qed.

Lemma Time_key (key : string) (val : time.Time) (g : Globals) :
  Key (fst (Time key val g)) = key.
Proof.
  unfold Time, bind, load.
  destruct (time.Before val (_minTimeInt64 g) || time.After val (_maxTimeInt64 g));
    reflexivity.
Qed.

Lemma Object_key (key : string) (val : Value) (g : Globals) :
  Key (fst (Object key val g)) = key.
Proof. destruct val; reflexivity. Qed.

Ltac pointer_key :=
  match goal with
  | |- Key (fst (_ _ ?val _)) = _ =>
      destruct val; first [ reflexivity | exact (Time_key _ _ _) ]
  end.

Lemma Any_key (ext : Externals) (key : string) (value : Value) (g : Globals) :
  externals_keep_key ext -> Key (fst (Any ext key value g)) = key.
Proof.
  unfold externals_keep_key, keeps_key.
  intros (? & ? & ? & ? & ? & ? & ? & ? & ? & ? & ? & ? & ? & ? & ? & ? & ? & ? & ? & ? & ?).
  unfold Any.
  destruct (implements iface.ObjectMarshaler value); [ apply Object_key | ].
  destruct (implements iface.ArrayMarshaler value); [ cbn; auto | ].
  destruct (implements iface.error value); destruct (implements iface.Stringer value);
    destruct value; unfold dictField;
    first [ apply Object_key | apply Time_key | solve [ cbn; auto ] | pointer_key ].
Qed.

(** X6. Every constructor of [field.go] that reads a package-level
    variable, [Any] included, returns a field under the key it was asked
    for, whatever the package-level variables hold; for [Any] this takes
    the constructors declared outside [field.go] to keep the key. In
    particular the copy [nilField] makes of the shared template carries
    the caller's key and not the template's. *)
Theorem constructors_carry_key (ext : Externals) (c : Call) (g : Globals) :
  externals_keep_key ext ->
  Key (fst (exec ext c g)) = requested_key c.
Proof.
  intros H. destruct c; cbn [exec requested_key]; unfold Dict, dictField;
    first [ reflexivity | apply Any_key; exact H | apply Object_key | apply Time_key
          | pointer_key ].
Qed.

Lemma sample_externals_keep_key : externals_keep_key sample_externals.
Proof. repeat split. Defined.

Lemma constructors_carry_key_witness :
  Key (fst (exec sample_externals (call_Any "user" (VStrings ["a"; "b"])) init)) = "user" /\
  Key (fst (exec sample_externals (call_Timep "seen" None)
              {| _minTimeInt64 := _minTimeInt64 init;
                 _maxTimeInt64 := _maxTimeInt64 init;
                 nilReflectField := mkField "stale" ReflectType 0 "" VNil |})) = "seen".
Proof.
  split.
  - exact (constructors_carry_key sample_externals
             (call_Any "user" (VStrings ["a"; "b"])) init sample_externals_keep_key).
  - exact (constructors_carry_key sample_externals (call_Timep "seen" None) _
             sample_externals_keep_key).
Defined.

End zap_more.

(** * Further properties of the buffer *)

Module buffer_more.

Import slices buffer_spec buffer_proofs.
Local Open Scope nat_scope.
Local Open Scope list_scope.

(** *** Growing ahead of time *)

Lemma make_ok (n c : nat) (st : State) :
  n <= c ->
  make n c st
  = Some (mkSlice (next_array st) (repeat x00 n) (repeat x00 (c - n)),
          mkState (S (next_array st)) (pooled st)).
Proof.
  intros L. unfold make.
  destruct (Nat.ltb_spec c n) as [ G | _ ]; [ lia | reflexivity ].
Qed.


Lemma EnsureCapacity_grows (capacity : Z) (b : Buffer) (st : State) :
  (Z.of_nat (cap (bs b)) < capacity)%Z ->
  buffer.EnsureCapacity capacity b st
  = Some (set_bs b (mkSlice (next_array st) (elems (bs b))
                      (repeat x00 (Z.to_nat capacity - len (bs b)))),
          mkState (S (next_array st)) (pooled st)).
Proof.
  intros G. unfold buffer.EnsureCapacity.
  destruct (Z.ltb_spec (Z.of_nat (cap (bs b))) capacity) as [ _ | L ]; [ | lia ].
  unfold bind at 1. rewrite make_ok by (unfold cap, len in *; lia).
  unfold bind.
  rewrite <- (app_nil_r (repeat x00 (len (bs b)))).
  change (repeat x00 (len (bs b)) ++ []) with ([] ++ repeat x00 (len (bs b)) ++ []).
  rewrite (copy_at_middle _ [] (repeat x00 (len (bs b))) [])
    by (rewrite repeat_length; reflexivity).
  cbn [app]. rewrite app_nil_r. reflexivity.
Qed.



(** *** Appends that fit the capacity *)

Section InPlace.

Variable A : Appends.

Hypothesis A_in_place :
  forall (o : Op) (b : Buffer) (st : State),
    len (bs b) + List.length (payload o) <= cap (bs b) ->
    exists b' : Buffer,
      call A o b st = Some (b', st) /\
      arr (bs b') = arr (bs b) /\
      cap (bs b') = cap (bs b) /\
      elems (bs b') = elems (bs b) ++ payload o.

Lemma call_all_in_place (ops : list Op) :
  forall (b : Buffer) (st : State),
    len (bs b) + List.length (appended ops) <= cap (bs b) ->
    exists b' : Buffer,
      call_all A ops b st = Some (b', st) /\
      arr (bs b') = arr (bs b) /\
      cap (bs b') = cap (bs b) /\
      elems (bs b') = elems (bs b) ++ appended ops.
Proof.
  induction ops as [ | o ops IH ]; intros b st L.
  - exists b. cbn. rewrite app_nil_r. repeat split.
  - unfold appended in L. cbn [flat_map] in L. rewrite length_app in L.
    fold (appended ops) in L.
    destruct (A_in_place o b st ltac:(lia)) as (b1 & E1 & A1 & C1 & B1).
    destruct (IH b1 st) as (b2 & E2 & A2 & C2 & B2).
    { unfold len in *. rewrite B1, length_app, C1. lia. }
    exists b2. cbn [call_all]. unfold bind. rewrite E1.
    split; [ exact E2 | ]. split; [ congruence | ]. split; [ congruence | ].
    rewrite B2, B1. unfold appended. cbn [flat_map]. rewrite app_assoc. reflexivity.
Qed.

End InPlace.

Lemma via_append_in_place
    (growslice : nat -> nat -> nat) (v : list byte) (b : Buffer) (st : State) :
  len (bs b) + List.length v <= cap (bs b) ->
  exists b' : Buffer,
    (s <- append growslice (bs b) v ;; ret (set_bs b s)) st = Some (b', st) /\
    arr (bs b') = arr (bs b) /\
    cap (bs b') = cap (bs b) /\
    elems (bs b') = elems (bs b) ++ v.
Proof.
  intros L. unfold bind.
  rewrite append_in_place by (unfold cap, len in L; lia).
  eexists. split; [ reflexivity | ]. cbn. repeat split.
  unfold cap, len in *. cbn. rewrite length_app, length_skipn. lia.
Qed.

Lemma unchanged_in_place (b : Buffer) (st : State) (v : list byte) :
  v = [] ->
  exists b' : Buffer,
    Some (b, st) = Some (b', st) /\
    arr (bs b') = arr (bs b) /\
    cap (bs b') = cap (bs b) /\
    elems (bs b') = elems (bs b) ++ v.
Proof. intros ->. exists b. rewrite app_nil_r. repeat split. Qed.

Lemma buffer_go_in_place (growslice : nat -> nat -> nat)
    (o : Op) (b : Buffer) (st : State) :
  len (bs b) + List.length (payload o) <= cap (bs b) ->
  exists b' : Buffer,
    call (buffer_go growslice) o b st = Some (b', st) /\
    arr (bs b') = arr (bs b) /\
    cap (bs b') = cap (bs b) /\
    elems (bs b') = elems (bs b) ++ payload o.
Proof.
  destruct o as [ v | v | s ];
    cbn [call buffer_go AppendByte AppendBytes AppendString payload]; intros L.
  - apply via_append_in_place. exact L.
  - unfold buffer.AppendBytes. destruct v as [ | x v ].
    + apply unchanged_in_place. reflexivity.
    + apply via_append_in_place. exact L.
  - unfold buffer.AppendString.
    destruct (Nat.eqb_spec (String.length s) 0) as [ E | _ ].
    + apply unchanged_in_place. apply bytes_of_empty. exact E.
    + apply via_append_in_place. exact L.
Qed.

Lemma part_000_go_in_place (growslice : nat -> nat -> nat)
    (o : Op) (b : Buffer) (st : State) :
  len (bs b) + List.length (payload o) <= cap (bs b) ->
  exists b' : Buffer,
    call (part_000_go growslice) o b st = Some (b', st) /\
    arr (bs b') = arr (bs b) /\
    cap (bs b') = cap (bs b) /\
    elems (bs b') = elems (bs b) ++ payload o.
Proof.
  destruct o as [ v | v | s ];
    cbn [call part_000_go AppendByte AppendBytes AppendString payload]; intros L.
  - apply via_append_in_place. exact L.
  - apply via_append_in_place. exact L.
  - destruct (Nat.eq_dec (String.length s) 0) as [ E | N ].
    + rewrite (AppendString_empty s b st E).
      apply unchanged_in_place. apply bytes_of_empty. exact E.
    + rewrite length_bytes_of in L.
      rewrite (AppendString_in_place s b st N) by (unfold cap, len in L; lia).
      eexists. split; [ reflexivity | ]. cbn. repeat split.
      unfold cap, len in *. cbn. rewrite length_app, length_skipn, length_bytes_of. lia.
Qed.

(** X8. With the append methods of either buffer file, a sequence of
    appends whose bytes fit the remaining capacity allocates nothing:
    every call returns, the backing array, the capacity and the
    allocator are as before, and the content is the old content followed
    by the appended bytes. *)
Theorem appends_within_capacity_do_not_allocate
    (growslice : nat -> nat -> nat) (ops : list Op) (b : Buffer) (st : State) :
  buffer.Len b + List.length (appended ops) <= buffer.Cap b ->
  (exists b' : Buffer,
     call_all (buffer_go growslice) ops b st = Some (b', st) /\
     arr (bs b') = arr (bs b) /\
     buffer.Cap b' = buffer.Cap b /\
     buffer.Bytes b' = buffer.Bytes b ++ appended ops) /\
  (exists b' : Buffer,
     call_all (part_000_go growslice) ops b st = Some (b', st) /\
     arr (bs b') = arr (bs b) /\
     part_000.Cap b' = part_000.Cap b /\
     part_000.Bytes b' = part_000.Bytes b ++ appended ops).
Proof.
  intros L. split.
  - apply (call_all_in_place _ (buffer_go_in_place growslice)). exact L.
  - apply (call_all_in_place _ (part_000_go_in_place growslice)). exact L.
Qed.

Lemma appends_within_capacity_do_not_allocate_witness :
  (exists b' : Buffer,
     call_all (buffer_go doubling)
       [op_AppendString "key"; op_AppendByte x3d; op_AppendBytes [x31; x32]]
       fresh_buffer fresh_state = Some (b', fresh_state) /\
     arr (bs b') = 0 /\
     buffer.Cap b' = 1024 /\
     buffer.Bytes b' = bytes_of "key=12") /\
  (exists b' : Buffer,
     call_all (part_000_go doubling)
       [op_AppendString "key"; op_AppendByte x3d; op_AppendBytes [x31; x32]]
       fresh_buffer fresh_state = Some (b', fresh_state) /\
     arr (bs b') = 0 /\
     part_000.Cap b' = 1024 /\
     part_000.Bytes b' = bytes_of "key=12").
Proof.
  assert (L : buffer.Len fresh_buffer
              + List.length (appended [op_AppendString "key"; op_AppendByte x3d;
                                       op_AppendBytes [x31; x32]])
              <= buffer.Cap fresh_buffer) by (vm_compute; lia).
  exact (appends_within_capacity_do_not_allocate doubling _ fresh_buffer fresh_state L).
Defined.



(** *** The writer methods *)

Section Writers.

Variable growslice : nat -> nat -> nat.

(** What [buffer/buffer.go] does on a write of the bytes [v] that does
    not fit: one new array of exactly the length needed. *)
Lemma ensure_then_append (v : list byte) (b : Buffer) (st : State) :
  cap (bs b) < len (bs b) + List.length v ->
  (b1 <- buffer.EnsureCapacity (Z.of_nat (len (bs b) + List.length v)) b ;;
   append growslice (bs b1) v) st
  = Some (mkSlice (next_array st) (elems (bs b) ++ v) [],
          mkState (S (next_array st)) (pooled st)).
Proof.
  intros G. unfold bind at 1. rewrite EnsureCapacity_grows by lia.
  rewrite Nat2Z.id.
  replace (len (bs b) + List.length v - len (bs b)) with (List.length v) by lia.
  rewrite append_in_place by (cbn; rewrite repeat_length; lia).
  cbn [bs set_bs arr elems spare].
  rewrite skipn_all2 by (rewrite repeat_length; lia). reflexivity.
Qed.

Lemma Write_eq (p : list byte) (b : Buffer) (st : State) :
  buffer.Write growslice p b st
  = Some (if List.length p =? 0 then (b, (0, None), st)
          else if len (bs b) + List.length p <=? cap (bs b)
          then (set_bs b (mkSlice (arr (bs b)) (elems (bs b) ++ p)
                            (skipn (List.length p) (spare (bs b)))),
                (List.length p, None), st)
          else (set_bs b (mkSlice (next_array st) (elems (bs b) ++ p) []),
                (List.length p, None),
                mkState (S (next_array st)) (pooled st))).
Proof.
  unfold buffer.Write.
  destruct (Nat.eqb_spec (List.length p) 0) as [ E | N ]; [ reflexivity | ].
  destruct (Nat.leb_spec (len (bs b) + List.length p) (cap (bs b))) as [ L | G ].
  - destruct (Nat.ltb_spec (cap (bs b)) (len (bs b) + List.length p)) as [ G | _ ];
      [ lia | ].
    unfold bind, ret at 1.
    rewrite append_in_place by (unfold cap, len in L; lia). reflexivity.
  - destruct (Nat.ltb_spec (cap (bs b)) (len (bs b) + List.length p)) as [ _ | L ];
      [ | lia ].
    pose proof (ensure_then_append p b st G) as E. unfold bind in *.
    destruct (buffer.EnsureCapacity (Z.of_nat (len (bs b) + List.length p)) b st)
      as [ [ b1 st1 ] | ] eqn:E1; [ | discriminate E ].
    assert (P : set_bs b1 = set_bs b).
    { rewrite EnsureCapacity_grows in E1 by lia. injection E1 as <- _. reflexivity. }
    rewrite E. unfold ret. rewrite P. reflexivity.
Qed.

Lemma WriteString_eq (s : string) (b : Buffer) (st : State) :
  buffer.WriteString growslice s b st
  = Some (if String.length s =? 0 then (b, (0, None), st)
          else if len (bs b) + String.length s <=? cap (bs b)
          then (set_bs b (mkSlice (arr (bs b)) (elems (bs b) ++ bytes_of s)
                            (skipn (String.length s) (spare (bs b)))),
                (String.length s, None), st)
          else (set_bs b (mkSlice (next_array st) (elems (bs b) ++ bytes_of s) []),
                (String.length s, None),
                mkState (S (next_array st)) (pooled st))).
Proof.
  unfold buffer.WriteString.
  destruct (Nat.eqb_spec (String.length s) 0) as [ E | N ]; [ reflexivity | ].
  unfold buffer.AppendString.
  destruct (Nat.eqb_spec (String.length s) 0) as [ E | _ ]; [ contradiction | ].
  destruct (Nat.leb_spec (len (bs b) + String.length s) (cap (bs b))) as [ L | G ].
  - destruct (Nat.ltb_spec (cap (bs b)) (len (bs b) + String.length s)) as [ G | _ ];
      [ lia | ].
    unfold bind, ret at 1.
    rewrite append_in_place by (rewrite length_bytes_of; unfold cap, len in L; lia).
    rewrite length_bytes_of. reflexivity.
  - destruct (Nat.ltb_spec (cap (bs b)) (len (bs b) + String.length s)) as [ _ | L ];
      [ | lia ].
    pose proof (ensure_then_append (bytes_of s) b st) as E.
    rewrite length_bytes_of in E. specialize (E G). unfold bind in *.
    destruct (buffer.EnsureCapacity (Z.of_nat (len (bs b) + String.length s)) b st)
      as [ [ b1 st1 ] | ] eqn:E1; [ | discriminate E ].
    assert (P : set_bs b1 = set_bs b).
    { rewrite EnsureCapacity_grows in E1 by lia. injection E1 as <- _. reflexivity. }
    rewrite E. unfold ret. rewrite P. reflexivity.
Qed.

End Writers.

(** X10. [Write] and [WriteString] of [buffer/buffer.go] always
    return the number of bytes they were given and a nil error, and
    leave the old content followed by those bytes. When the bytes fit
    the capacity nothing is allocated; when they do not, the buffer gets
    one new array of exactly the new length, with no capacity to spare,
    whatever the growth policy of [append] is. *)
Theorem Write_grows_to_exact_length
    (growslice : nat -> nat -> nat) (w : WriteOp) (b : Buffer) (st : State) :
  exists (b' : Buffer) (st' : State),
    match w with
    | op_Write p =>
        buffer.Write growslice p b st = Some (b', (List.length p, None), st')
    | op_WriteString s =>
        buffer.WriteString growslice s b st = Some (b', (String.length s, None), st')
    end /\
    buffer.Bytes b' = buffer.Bytes b ++ written w /\
    (if buffer.Len b + List.length (written w) <=? buffer.Cap b
     then arr (bs b') = arr (bs b) /\ buffer.Cap b' = buffer.Cap b /\ st' = st
     else buffer.Cap b' = buffer.Len b' /\
          buffer.Len b' = buffer.Len b + List.length (written w) /\
          arr (bs b') = next_array st /\
          next_array st' = S (next_array st)).
Proof.
  unfold buffer.Bytes, buffer.Len, buffer.Cap.
  destruct w as [ p | s ]; cbn [written].
  - rewrite Write_eq.
    destruct (Nat.eqb_spec (List.length p) 0) as [ E | N ].
    + apply length_zero_iff_nil in E. subst p.
      exists b, st. rewrite app_nil_r, Nat.add_0_r.
      destruct (Nat.leb_spec (len (bs b)) (cap (bs b))) as [ _ | G ];
        [ repeat split | unfold cap, len in G; lia ].
    + destruct (Nat.leb_spec (len (bs b) + List.length p) (cap (bs b))) as [ L | G ].
      * do 2 eexists. split; [ reflexivity | ]. cbn. repeat split.
        unfold cap, len in *. cbn. rewrite length_app, length_skipn. lia.
      * do 2 eexists. split; [ reflexivity | ]. cbn. repeat split.
        -- unfold cap, len. cbn. lia.
        -- unfold len. cbn. apply length_app.
  - rewrite WriteString_eq, length_bytes_of.
    destruct (Nat.eqb_spec (String.length s) 0) as [ E | N ].
    + exists b, st. rewrite (bytes_of_empty s E), app_nil_r, E, Nat.add_0_r.
      destruct (Nat.leb_spec (len (bs b)) (cap (bs b))) as [ _ | G ];
        [ repeat split | unfold cap, len in G; lia ].
    + destruct (Nat.leb_spec (len (bs b) + String.length s) (cap (bs b))) as [ L | G ].
      * do 2 eexists. split; [ reflexivity | ]. cbn. repeat split.
        unfold cap, len in *. cbn.
        rewrite length_app, length_skipn, length_bytes_of. lia.
      * do 2 eexists. split; [ reflexivity | ]. cbn. repeat split.
        -- unfold cap, len. cbn. lia.
        -- unfold len. cbn. rewrite length_app, length_bytes_of. reflexivity.
Qed.

Lemma write_on_full (growslice : nat -> nat -> nat)
    (w : WriteOp) (b : Buffer) (st : State) :
  cap (bs b) = len (bs b) ->
  written w <> [] ->
  write growslice w b st
  = Some (set_bs b (mkSlice (next_array st) (elems (bs b) ++ written w) []),
          mkState (S (next_array st)) (pooled st)).
Proof.
  intros F N.
  assert (P : List.length (written w) <> 0).
  { intros E. apply N. apply length_zero_iff_nil. exact E. }
  destruct w as [ p | s ]; cbn [write written] in *; unfold bind.
  - rewrite Write_eq.
    destruct (Nat.eqb_spec (List.length p) 0) as [ E | _ ]; [ contradiction | ].
    destruct (Nat.leb_spec (len (bs b) + List.length p) (cap (bs b))) as [ L | _ ];
      [ lia | reflexivity ].
  - rewrite WriteString_eq. rewrite length_bytes_of in P.
    destruct (Nat.eqb_spec (String.length s) 0) as [ E | _ ]; [ contradiction | ].
    destruct (Nat.leb_spec (len (bs b) + String.length s) (cap (bs b))) as [ L | _ ];
      [ lia | reflexivity ].
Qed.

(** X11. On a buffer of [buffer/buffer.go] that is full, every write of
    at least one byte through [Write] or [WriteString] allocates a new
    array and leaves the buffer full again: a sequence of such writes
    allocates as many arrays as there are writes. *)
Theorem writes_on_full_buffer_allocate_each_time
    (growslice : nat -> nat -> nat) (ws : list WriteOp) :
  forall (b : Buffer) (st : State),
    buffer.Cap b = buffer.Len b ->
    Forall (fun w => written w <> []) ws ->
    exists (b' : Buffer) (st' : State),
      write_all growslice ws b st = Some (b', st') /\
      buffer.Bytes b' = buffer.Bytes b ++ flat_map written ws /\
      buffer.Cap b' = buffer.Len b' /\
      next_array st' = next_array st + List.length ws.
Proof.
  unfold buffer.Cap, buffer.Len, buffer.Bytes.
  induction ws as [ | w ws IH ]; intros b st F N.
  - exists b, st. cbn. rewrite app_nil_r, Nat.add_0_r. repeat split. exact F.
  - inversion N as [ | ? ? Nw Nws ]; subst.
    cbn [write_all]. unfold bind. rewrite (write_on_full growslice w b st F Nw).
    destruct (IH (set_bs b (mkSlice (next_array st) (elems (bs b) ++ written w) []))
                (mkState (S (next_array st)) (pooled st)))
      as (b' & st' & E & B & C & A); [ | exact Nws | ].
    + unfold cap, len. cbn [bs set_bs elems spare List.length]. apply Nat.add_0_r.
    + exists b', st'. split; [ exact E | ]. split; [ | split; [ exact C | ] ].
      * rewrite B. cbn. rewrite app_assoc. reflexivity.
      * rewrite A. cbn. lia.
Qed.

Lemma writes_on_full_buffer_allocate_each_time_witness :
  exists (b' : Buffer) (st' : State),
    write_all doubling [op_Write [x61]; op_WriteString "b"; op_Write [x63]]
      (mkBuffer (mkSlice 0 [x3e] []) 0) fresh_state = Some (b', st') /\
    buffer.Bytes b' = [x3e; x61; x62; x63] /\
    buffer.Cap b' = buffer.Len b' /\
    next_array st' = 4.
Proof.
  assert (F : buffer.Cap (mkBuffer (mkSlice 0 [x3e] []) 0)
              = buffer.Len (mkBuffer (mkSlice 0 [x3e] []) 0)) by reflexivity.
  assert (N : Forall (fun w => written w <> [])
                [op_Write [x61]; op_WriteString "b"; op_Write [x63]])
    by (repeat constructor; discriminate).
  exact (writes_on_full_buffer_allocate_each_time doubling _ _ fresh_state F N).
Defined.

(** *** Trimming, resetting, releasing, reading *)

(** X12. [TrimNewline], the same in both buffer files, never panics and
    keeps the array and the capacity. A content that ends in a line feed
    loses that one byte; any other content, the empty one included,
    leaves the buffer as it was. *)
Theorem TrimNewline_drops_one_line_feed (b : Buffer) (st : State) :
  exists b' : Buffer,
    buffer.TrimNewline b st = Some (b', st) /\
    part_000.TrimNewline b st = Some (b', st) /\
    arr (bs b') = arr (bs b) /\
    buffer.Cap b' = buffer.Cap b /\
    pool b' = pool b /\
    (forall c : list byte, buffer.Bytes b = c ++ [x0a] -> buffer.Bytes b' = c) /\
    ((forall c : list byte, buffer.Bytes b <> c ++ [x0a]) -> b' = b).
Proof.
  change (part_000.TrimNewline b st) with (buffer.TrimNewline b st).
  unfold buffer.TrimNewline, buffer.Bytes, buffer.Cap, len.
  destruct (elems (bs b)) as [ | x0 l0 ] eqn:El.
  - exists b. cbn. do 5 (split; [ reflexivity | ]). split; [ | reflexivity ].
    intros c E. destruct c; discriminate E.
  - destruct (@exists_last _ (x0 :: l0) ltac:(discriminate)) as (c & x & Ec).
    rewrite Ec, length_app. cbn [List.length].
    destruct (Z.geb_spec (Z.of_nat (List.length c + 1) - 1) 0) as [ _ | Neg ]; [ | lia ].
    replace (Z.to_nat (Z.of_nat (List.length c + 1) - 1)) with (List.length c) by lia.
    unfold bind, index. rewrite El, Ec.
    rewrite nth_error_app2, Nat.sub_diag by lia. cbn [nth_error].
    cbv beta iota delta [ret].
    destruct (Byte.eqb x x0a) eqn:Ex.
    + apply byte_dec_bl in Ex. subst x.
      unfold reslice_to.
      destruct (Nat.ltb_spec (cap (bs b)) (List.length c)) as [ G | _ ].
      { unfold cap in G. rewrite El, Ec, length_app in G. lia. }
      eexists. split; [ reflexivity | ]. split; [ reflexivity | ].
      cbn [bs set_bs arr elems spare pool]. rewrite El, Ec.
      rewrite <- app_assoc, firstn_app, firstn_all, Nat.sub_diag, firstn_0, app_nil_r.
      rewrite skipn_app, skipn_all, Nat.sub_diag. cbn [skipn app].
      split; [ reflexivity | ]. split.
      { unfold cap. cbn. rewrite El, Ec, length_app. cbn. lia. }
      split; [ reflexivity | ]. split.
      * intros c' E. apply app_inj_tail in E. apply E.
      * intros H. exfalso. apply (H c). reflexivity.
    + apply eqb_false in Ex.
      exists b. do 5 (split; [ reflexivity | ]). split; [ | reflexivity ].
      intros c' E. apply app_inj_tail in E.
      destruct E as [ _ E ]. contradiction.
Qed.

(** X13. The writer methods of the second buffer file, and [WriteByte]
    of both files, never panic: they leave what the append method of the
    same name leaves, the old content followed by the bytes given, and
    return the number of bytes given and a nil error. *)
Theorem writers_append_and_report
    (growslice : nat -> nat -> nat) (b : Buffer) (st : State) :
  (forall p : list byte,
     exists (b' : Buffer) (st' : State),
       part_000.Write growslice p b st = Some (b', (List.length p, None), st') /\
       part_000.AppendBytes growslice p b st = Some (b', st') /\
       part_000.Bytes b' = part_000.Bytes b ++ p) /\
  (forall s : string,
     exists (b' : Buffer) (st' : State),
       part_000.WriteString s b st = Some (b', (String.length s, None), st') /\
       part_000.AppendString s b st = Some (b', st') /\
       part_000.Bytes b' = part_000.Bytes b ++ bytes_of s) /\
  (forall v : byte,
     exists (b' : Buffer) (st' : State),
       part_000.WriteByte growslice v b st = Some (b', None, st') /\
       buffer.WriteByte growslice v b st = Some (b', None, st') /\
       part_000.Bytes b' = part_000.Bytes b ++ [v]).
Proof.
  unfold part_000.Bytes. split; [ | split ].
  - intros p. destruct (via_append growslice p b st) as (b' & st' & E & C).
    exists b', st'. unfold part_000.Write, part_000.AppendBytes.
    unfold bind in *. destruct (append growslice (bs b) p st) as [ [ s1 st1 ] | ];
      [ | discriminate E ].
    unfold ret in *. injection E as <- <-. repeat split. exact C.
  - intros s. destruct (AppendString_elems s b st) as (b' & st' & E & C).
    exists b', st'. unfold part_000.WriteString, bind. rewrite E. repeat split. exact C.
  - intros v. destruct (via_append growslice [v] b st) as (b' & st' & E & C).
    exists b', st'.
    unfold part_000.WriteByte, buffer.WriteByte, part_000.AppendByte, buffer.AppendByte.
    unfold bind in *. destruct (append growslice (bs b) [v] st) as [ [ s1 st1 ] | ];
      [ | discriminate E ].
    unfold ret in *. injection E as <- <-. repeat split. exact C.
Qed.

Lemma Reset_eq (b : Buffer) (st : State) :
  buffer.Reset b st
  = Some (set_bs b (mkSlice (arr (bs b)) [] (elems (bs b) ++ spare (bs b))), st).
Proof. reflexivity. Qed.

(** X14. [Reset], the same in both buffer files, empties the buffer and
    keeps its array and its capacity; appends that follow, with the
    methods of either file, and that fit that capacity allocate nothing
    and leave exactly the appended bytes, in the same array. *)
Theorem Reset_then_appends_reuse_array
    (growslice : nat -> nat -> nat) (ops : list Op) (b : Buffer) (st : State) :
  List.length (appended ops) <= buffer.Cap b ->
  exists b1 b2 b3 : Buffer,
    buffer.Reset b st = Some (b1, st) /\
    part_000.Reset b st = Some (b1, st) /\
    buffer.Len b1 = 0 /\
    buffer.Cap b1 = buffer.Cap b /\
    call_all (buffer_go growslice) ops b1 st = Some (b2, st) /\
    buffer.Bytes b2 = appended ops /\
    arr (bs b2) = arr (bs b) /\
    call_all (part_000_go growslice) ops b1 st = Some (b3, st) /\
    part_000.Bytes b3 = appended ops /\
    arr (bs b3) = arr (bs b).
Proof.
  unfold buffer.Cap, buffer.Len, buffer.Bytes, part_000.Bytes. intros L.
  change (part_000.Reset b st) with (buffer.Reset b st). rewrite Reset_eq.
  set (b1 := set_bs b (mkSlice (arr (bs b)) [] (elems (bs b) ++ spare (bs b)))).
  assert (C1 : cap (bs b1) = cap (bs b)).
  { unfold cap, b1. cbn. apply length_app. }
  assert (L1 : len (bs b1) + List.length (appended ops) <= cap (bs b1)).
  { rewrite C1. unfold len, b1. cbn. exact L. }
  destruct (call_all_in_place _ (buffer_go_in_place growslice) ops b1 st L1)
    as (b2 & E2 & A2 & _ & B2).
  destruct (call_all_in_place _ (part_000_go_in_place growslice) ops b1 st L1)
    as (b3 & E3 & A3 & _ & B3).
  exists b1, b2, b3.
  split; [ reflexivity | ]. split; [ reflexivity | ]. split; [ reflexivity | ].
  split; [ exact C1 | ]. split; [ exact E2 | ]. split; [ exact B2 | ].
  split; [ exact A2 | ]. split; [ exact E3 | ]. split; [ exact B3 | exact A3 ].
Qed.

Lemma Reset_then_appends_reuse_array_witness :
  exists b1 b2 b3 : Buffer,
    buffer.Reset grown_buffer fresh_state = Some (b1, fresh_state) /\
    part_000.Reset grown_buffer fresh_state = Some (b1, fresh_state) /\
    buffer.Len b1 = 0 /\
    buffer.Cap b1 = buffer.Cap grown_buffer /\
    call_all (buffer_go doubling) [op_AppendString "next"] b1 fresh_state
    = Some (b2, fresh_state) /\
    buffer.Bytes b2 = appended [op_AppendString "next"] /\
    arr (bs b2) = arr (bs grown_buffer) /\
    call_all (part_000_go doubling) [op_AppendString "next"] b1 fresh_state
    = Some (b3, fresh_state) /\
    part_000.Bytes b3 = appended [op_AppendString "next"] /\
    arr (bs b3) = arr (bs grown_buffer).
Proof.
  assert (L : List.length (appended [op_AppendString "next"]) <= buffer.Cap grown_buffer)
    by (vm_compute; lia).
  exact (Reset_then_appends_reuse_array doubling _ grown_buffer fresh_state L).
Defined.

(** X15. [Free] of [buffer/buffer.go] keeps the store of given-back
    buffers bounded: if every buffer in it is empty and has a capacity
    of at most 4096, this still holds once [Free] has put its buffer at
    the head of the store, whatever the capacity of that buffer was. *)
Theorem Free_keeps_pool_bounded (b : Buffer) (st : State) :
  pool_bounded st ->
  exists (b' : Buffer) (st' : State),
    buffer.Free b st = Some (b', st') /\
    pooled st' = (pool b, b') :: pooled st /\
    pool_bounded st'.
Proof.
  unfold pool_bounded. intros H. unfold buffer.Free.
  change (buffer._size * buffer._maxExcessCap) with 4096.
  destruct (Nat.ltb_spec 4096 (cap (bs b))) as [ G | L ].
  - do 2 eexists. split; [ reflexivity | ]. split; [ reflexivity | ].
    cbn [pooled]. constructor; [ | exact H ]. split; [ reflexivity | ].
    unfold cap. cbn [snd bs set_bs elems spare List.length].
    rewrite !repeat_length. unfold buffer._size. lia.
  - destruct (Nat.ltb_spec 0 (len (bs b))) as [ P | E ].
    + do 2 eexists. split; [ reflexivity | ]. split; [ reflexivity | ].
      cbn [pooled]. constructor; [ | exact H ]. split; [ reflexivity | ].
      unfold cap in *. cbn [snd bs set_bs elems spare List.length firstn skipn].
      rewrite length_app. exact L.
    + do 2 eexists. split; [ reflexivity | ]. split; [ reflexivity | ].
      cbn [pooled]. constructor; [ | exact H ]. cbn [snd]. split; [ lia | exact L ].
Qed.

Lemma Free_keeps_pool_bounded_witness :
  exists (b' : Buffer) (st' : State),
    buffer.Free grown_buffer fresh_state = Some (b', st') /\
    pooled st' = (pool grown_buffer, b') :: pooled fresh_state /\
    pool_bounded st'.
Proof.
  exact (Free_keeps_pool_bounded grown_buffer fresh_state (Forall_nil _)).
Defined.

Lemma string_of_list_byte_app (l1 l2 : list byte) :
  string_of_list_byte (l1 ++ l2)
  = (string_of_list_byte l1 ++ string_of_list_byte l2)%string.
Proof.
  unfold string_of_list_byte.
  induction l1 as [ | x l1 IH ]; cbn; [ reflexivity | rewrite IH; reflexivity ].
Qed.

Lemma bytes_of_app (s1 s2 : string) :
  bytes_of (s1 ++ s2)%string = bytes_of s1 ++ bytes_of s2.
Proof.
  unfold bytes_of, list_byte_of_string.
  induction s1 as [ | c s1 IH ]; cbn; [ reflexivity | rewrite IH; reflexivity ].
Qed.

Lemma appended_strings (ss : list string) :
  appended (map op_AppendString ss) = bytes_of (joined ss).
Proof.
  unfold appended.
  induction ss as [ | s ss IH ]; [ reflexivity | ].
  cbn [map flat_map payload]. rewrite IH. unfold joined. cbn [fold_right].
  rewrite bytes_of_app. reflexivity.
Qed.

(** X16. Strings appended with [AppendString] read back through
    [String]: after any sequence of such appends, with the method of
    either buffer file, [String] returns what it returned before
    followed by the appended strings in order. *)
Theorem String_reads_back_appended_strings
    (growslice : nat -> nat -> nat) (ss : list string) (b : Buffer) (st : State) :
  (exists (b' : Buffer) (st' : State),
     call_all (buffer_go growslice) (map op_AppendString ss) b st = Some (b', st') /\
     buffer.String b' = (buffer.String b ++ joined ss)%string) /\
  (exists (b' : Buffer) (st' : State),
     call_all (part_000_go growslice) (map op_AppendString ss) b st = Some (b', st') /\
     part_000.String b' = (part_000.String b ++ joined ss)%string).
Proof.
  unfold buffer.String, part_000.String. split.
  - destruct (call_all_appends (buffer_go growslice) (buffer_go_appends growslice)
                (map op_AppendString ss) b st) as (b' & st' & E & C).
    exists b', st'. split; [ exact E | ].
    rewrite C, appended_strings, string_of_list_byte_app.
    unfold bytes_of. rewrite string_of_list_byte_of_string. reflexivity.
  - destruct (call_all_appends (part_000_go growslice) (part_000_go_appends growslice)
                (map op_AppendString ss) b st) as (b' & st' & E & C).
    exists b', st'. split; [ exact E | ].
    rewrite C, appended_strings, string_of_list_byte_app.
    unfold bytes_of. rewrite string_of_list_byte_of_string. reflexivity.
Qed.

End buffer_more.
